(** * cronify: the job state manager (app/job_manager.py, app/app.py)

    A shallow embedding of [JobManager] over a model of the Redis
    keyspace it talks to, and the properties of its job state machine.

    Modelling choices, all taken from the source:
    - Every Redis command is one atomic step; a method of [JobManager]
      is a program over these commands (type [prog]).  Running a program
      to its end without interruption gives the behaviour of one caller
      ([run]); stepping two programs turn by turn, the clock moving in
      between, gives two concurrent callers on one store ([interleave]).
    - A job hash [job:<id>] only ever carries the five fields the program
      writes; it is a record of five optional fields, so [hmset] of a
      subset of them and [hgetall] of an absent key are what Redis makes
      of them.
    - Integer fields live in [Z] (Redis holds their decimal text and the
      program reads them back with [int]); [time.time()] is a reading of
      a clock, in seconds, kept in [Z].
    - The logger, the metrics counters and the Slack sink never touch the
      store and swallow their own failures; they are left out.

    The file also covers the routes of app.py that call the job manager,
    the label selector and the event loop of [KubernetesEventTracker]
    (app/kubernetes_events.py, over an abstract cluster API) and
    [LicenseManager] (app/license_manager.py, over its two Redis
    strings). *)

From stdpp Require Import gmap strings list pretty.
From Stdlib Require Import ZArith Ascii.

Local Open Scope Z_scope.

(** ** The job-id pattern of [is_valid_job_id] *)

Module Re.

(** The pieces of [r"^[a-zA-Z0-9\-]+$"]. *)
Inductive node :=
| Caret
| Dollar
| ClassPlus (cls : ascii -> bool).

Definition between (lo hi c : ascii) : bool :=
  (nat_of_ascii lo <=? nat_of_ascii c)%nat && (nat_of_ascii c <=? nat_of_ascii hi)%nat.

(** The character class [[a-zA-Z0-9\-]]. *)
Definition job_id_class (c : ascii) : bool :=
  between "a" "z" c || between "A" "Z" c || between "0" "9" c
  || Ascii.eqb c "-"%char.

Definition newline : ascii := ascii_of_nat 10.

(** Python's [$] without [re.MULTILINE]: the end of the string, or
    just before a newline that is the last character of the string. *)
Definition at_dollar (rest : string) : bool :=
  match rest with
  | "" => true
  | String c "" => Ascii.eqb c newline
  | _ => false
  end.

(** [cls+] followed by the rest of the pattern [k]: one character of
    the class, then more of them or the rest of the pattern. *)
Fixpoint plus (cls : ascii -> bool) (k : string -> bool) (s : string) : bool :=
  match s with
  | "" => false
  | String c s' => cls c && (plus cls k s' || k s')
  end.

(** [matches p at_start rest]: pattern [p] matches a prefix of [rest];
    [at_start] tells whether [rest] is the whole subject. *)
Fixpoint matches (p : list node) (at_start : bool) (rest : string) : bool :=
  match p with
  | [] => true
  | Caret :: p' => at_start && matches p' at_start rest
  | Dollar :: p' => at_dollar rest && matches p' at_start rest
  | ClassPlus cls :: p' => plus cls (matches p' false) rest
  end.

(** [re.match(pattern, s)] as a truth value: a match anchored at the
    start of [s]. *)
Definition re_match (p : list node) (s : string) : bool := matches p true s.

Definition job_id_pattern : list node := [Caret; ClassPlus job_id_class; Dollar].

(** Every character of [s] is in the class. *)
Fixpoint all_of (cls : ascii -> bool) (s : string) : bool :=
  match s with
  | "" => true
  | String c s' => cls c && all_of cls s'
  end.

End Re.

Definition is_valid_job_id (job_id : string) : bool :=
  Re.re_match Re.job_id_pattern job_id.

(** ** Configuration and module-level names *)

(** The three settings [job_manager.py] reads from the environment when
    it is imported. *)
Record config := {
  THRESHOLD_TIMEOUT : Z;
  MAX_RETRIES : Z;
  PROGRESS_THRESHOLD : Z
}.

Definition default_config : config :=
  {| THRESHOLD_TIMEOUT := 300; MAX_RETRIES := 3; PROGRESS_THRESHOLD := 10 |}.

(** The integer-valued names bound at module level in [job_manager.py];
    a name that is not bound here is bound nowhere ([redis], [os], [time],
    the imported functions and the class are the only other globals). *)
Definition module_globals (cfg : config) : gmap string Z :=
  <["THRESHOLD_TIMEOUT" := THRESHOLD_TIMEOUT cfg]>
  (<["MAX_RETRIES" := MAX_RETRIES cfg]>
  (<["PROGRESS_THRESHOLD" := PROGRESS_THRESHOLD cfg]> ∅)).

(** ** The store *)

(** The hash stored under [job:<id>]: the five fields the program ever
    writes, each present or not. *)
Record fields := {
  status : option string;
  progress : option Z;
  last_progress : option Z;
  retries : option Z;
  start_time : option Z
}.

Definition no_fields : fields :=
  {| status := None; progress := None; last_progress := None;
     retries := None; start_time := None |}.

(** [hmset] overwrites the fields of the mapping and keeps the others. *)
Definition hmerge (mapping old : fields) : fields :=
  {| status := from_option Some (status old) (status mapping);
     progress := from_option Some (progress old) (progress mapping);
     last_progress := from_option Some (last_progress old) (last_progress mapping);
     retries := from_option Some (retries old) (retries mapping);
     start_time := from_option Some (start_time old) (start_time mapping) |}.

(** The keyspace the program uses: hashes by key, the one set
    [active_jobs], and the clock that [time.time()] reads. *)
Record world := {
  hashes : gmap string fields;
  active_jobs : gset string;
  clock : Z
}.

Definition empty_world (t : Z) : world :=
  {| hashes := ∅; active_jobs := ∅; clock := t |}.

Definition with_hashes (h : gmap string fields) (w : world) : world :=
  {| hashes := h; active_jobs := active_jobs w; clock := clock w |}.

Definition with_active (a : gset string) (w : world) : world :=
  {| hashes := hashes w; active_jobs := a; clock := clock w |}.

Definition with_clock (t : Z) (w : world) : world :=
  {| hashes := hashes w; active_jobs := active_jobs w; clock := t |}.

(** ** Atomic actions and programs *)

Inductive exn :=
| NameError (name : string)
| KeyError (key : string)
| TypeError
| IndexError.

(** One call on [redis_client] (the set commands always name
    ["active_jobs"]), or one reading of the clock.  [KEYS p] stands for
    [keys(p + "*")]; Redis promises no order for its answer, the model
    lists the keys in the order of the map. *)
Inductive cmd : Type -> Type :=
| SISMEMBER (member : string) : cmd bool
| SADD (member : string) : cmd unit
| SREM (member : string) : cmd unit
| EXISTS (key : string) : cmd bool
| HMSET (key : string) (mapping : fields) : cmd unit
| HGETALL (key : string) : cmd fields
| HGET {V : Type} (key : string) (field : fields -> option V) : cmd (option V)
| KEYS (key_prefix : string) : cmd (list string)
| TIME : cmd Z.

Definition exec {X : Type} (c : cmd X) (w : world) : X * world :=
  match c in cmd T return T * world with
  | SISMEMBER m => (bool_decide (m ∈ active_jobs w), w)
  | SADD m => (tt, with_active ({[m]} ∪ active_jobs w) w)
  | SREM m => (tt, with_active (active_jobs w ∖ {[m]}) w)
  | EXISTS k => (bool_decide (is_Some (hashes w !! k)), w)
  | HMSET k mapping =>
      (tt, with_hashes
             (<[k := hmerge mapping (default no_fields (hashes w !! k))]> (hashes w)) w)
  | HGETALL k => (default no_fields (hashes w !! k), w)
  | HGET k field => (hashes w !! k ≫= field, w)
  | KEYS p =>
      (filter (fun k => Is_true (String.prefix p k)) (map_to_list (hashes w)).*1, w)
  | TIME => (clock w, w)
  end.

(** A method body: it returns, raises, or performs an action and goes on
    with the answer. *)
Inductive prog (A : Type) : Type :=
| Ret (a : A)
| Raise (e : exn)
| Act {X : Type} (c : cmd X) (k : X -> prog A).

Arguments Ret {A} a.
Arguments Raise {A} e.
Arguments Act {A X} c k.

Fixpoint bind {A B : Type} (p : prog A) (f : A -> prog B) : prog B :=
  match p with
  | Ret a => f a
  | Raise e => Raise e
  | Act c k => Act c (fun x => bind (k x) f)
  end.

#[global] Instance prog_ret : MRet prog := @Ret.
#[global] Instance prog_bind : MBind prog := fun A B f p => bind p f.

Definition act {X : Type} (c : cmd X) : prog X := Act c Ret.

(** One caller alone: the program runs to its end; an exception leaves
    the store as the actions before it made it. *)
Fixpoint run {A : Type} (p : prog A) (w : world) : (exn + A) * world :=
  match p with
  | Ret a => (inr a, w)
  | Raise e => (inl e, w)
  | Act c k => let '(x, w') := exec c w in run (k x) w'
  end.

(** Two callers on one store.  A schedule says, turn by turn, which
    caller performs its next action, or that the clock has moved on to
    [t]. *)
Inductive turn :=
| First
| Second
| Clock (t : Z).

Definition step {A : Type} (p : prog A) (w : world) : prog A * world :=
  match p with
  | Act c k => let '(x, w') := exec c w in (k x, w')
  | _ => (p, w)
  end.

Fixpoint interleave {A B : Type} (sched : list turn) (p : prog A) (q : prog B)
    (w : world) : prog A * prog B * world :=
  match sched with
  | [] => (p, q, w)
  | First :: sched' => let '(p', w') := step p w in interleave sched' p' q w'
  | Second :: sched' => let '(q', w') := step q w in interleave sched' p q' w'
  | Clock t :: sched' => interleave sched' p q (with_clock t w)
  end.

(** The turns of the callers in a schedule, in order: [true] for the
    first caller. *)
Definition callers (sched : list turn) : list bool :=
  omap (fun t => match t with
                 | First => Some true
                 | Second => Some false
                 | Clock _ => None
                 end) sched.

(** How many turns a caller has in a schedule. *)
Definition turns (first : bool) (sched : list turn) : nat :=
  length (filter (fun b => b = first) (callers sched)).

(** The same turn with the two callers exchanged. *)
Definition exchanged (t : turn) : turn :=
  match t with
  | First => Second
  | Second => First
  | Clock t => Clock t
  end.

Definition returned {A : Type} (p : prog A) : option A :=
  match p with Ret a => Some a | _ => None end.

(** ** Python-side operations that can raise *)

(** [d[name]] on the dict that [hgetall] gave. *)
Definition item {V : Type} (field : option V) (name : string) : prog V :=
  match field with
  | Some v => Ret v
  | None => Raise (KeyError name)
  end.

(** [int(x)] on what [hget] gave: [None] for an absent field. *)
Definition int_of (x : option Z) : prog Z :=
  match x with
  | Some z => Ret z
  | None => Raise TypeError
  end.

(** A module-level name read inside a method. *)
Definition load_global (cfg : config) (name : string) : prog Z :=
  match module_globals cfg !! name with
  | Some v => Ret v
  | None => Raise (NameError name)
  end.

(** [s.split(sep)] for a one-character separator. *)
Fixpoint split (sep : ascii) (s : string) : list string :=
  match s with
  | "" => [""]
  | String c s' =>
      if Ascii.eqb c sep then "" :: split sep s'
      else match split sep s' with
           | seg :: segs => String c seg :: segs
           | [] => [String c ""]
           end
  end.

(** [l[i]] on a list. *)
Definition index {V : Type} (l : list V) (i : nat) : prog V :=
  match l !! i with
  | Some v => Ret v
  | None => Raise IndexError
  end.

(** [for x in l: body]. *)
Fixpoint for_each {X : Type} (l : list X) (body : X -> prog unit) : prog unit :=
  match l with
  | [] => Ret tt
  | x :: l' => body x ;; for_each l' body
  end.

(** ** JobManager *)

(** The dict a method returns: ["status"] and, in most cases, ["job_id"]. *)
Record response := {
  r_status : string;
  r_job_id : option string
}.

(** [f"job:{job_id}"]. *)
Definition job_key (job_id : string) : string := "job:" +:+ job_id.

Definition start_job (job_id : string) : prog response :=
  duplicate ← act (SISMEMBER job_id);
  if (duplicate : bool) then
    mret {| r_status := "Duplicate Job ID"; r_job_id := Some job_id |}
  else
    act (SADD job_id) ;;
    now ← act TIME;
    act (HMSET (job_key job_id)
           {| status := Some "Running"; progress := Some 0;
              last_progress := Some 0; retries := Some 0;
              start_time := Some now |}) ;;
    mret {| r_status := "Accepted"; r_job_id := Some job_id |}.

(** [get_job_status] returns the not-found dict or the hash itself. *)
Definition get_job_status (job_id : string) : prog (response + fields) :=
  found ← act (EXISTS (job_key job_id));
  if negb found then
    mret (inl {| r_status := "Not Found"; r_job_id := None |})
  else
    job ← act (HGETALL (job_key job_id));
    mret (inr job).

Definition update_progress (job_id : string) (new_progress : Z) : prog response :=
  found ← act (EXISTS (job_key job_id));
  if negb found then
    mret {| r_status := "Not Found"; r_job_id := None |}
  else
    job_data ← act (HGETALL (job_key job_id));
    st ← item (status job_data) "status";
    if bool_decide (st ≠ "Running") then
      mret {| r_status := "Not Running"; r_job_id := Some job_id |}
    else
      old ← item (progress job_data) "progress";
      act (HMSET (job_key job_id)
             {| status := None; progress := Some new_progress;
                last_progress := Some old; retries := None;
                start_time := None |}) ;;
      mret {| r_status := "Progress Updated"; r_job_id := Some job_id |}.

Definition complete_job (job_id : string) : prog response :=
  found ← act (EXISTS (job_key job_id));
  if negb found then
    mret {| r_status := "Not Found"; r_job_id := None |}
  else
    act (HMSET (job_key job_id)
           {| status := Some "Completed"; progress := None;
              last_progress := None; retries := None; start_time := None |}) ;;
    act (SREM job_id) ;;
    mret {| r_status := "Completed"; r_job_id := Some job_id |}.

Definition fail_job (job_id : string) : prog response :=
  found ← act (EXISTS (job_key job_id));
  if negb found then
    mret {| r_status := "Not Found"; r_job_id := None |}
  else
    act (HMSET (job_key job_id)
           {| status := Some "Failed"; progress := None;
              last_progress := None; retries := None; start_time := None |}) ;;
    act (SREM job_id) ;;
    mret {| r_status := "Failed"; r_job_id := Some job_id |}.

Section WithConfig.

Variable cfg : config.

Definition retry_job (job_id : string) : prog response :=
  found ← act (EXISTS (job_key job_id));
  if negb found then
    mret {| r_status := "Not Found"; r_job_id := None |}
  else
    stored ← act (HGET (job_key job_id) retries);
    n ← int_of stored;
    let attempt := n + 1 in
    max_retries ← load_global cfg "MAX_RETRIES";
    if bool_decide (attempt > max_retries) then
      mret {| r_status := "Max Retries Exceeded"; r_job_id := Some job_id |}
    else
      act (HMSET (job_key job_id)
             {| status := Some "Retrying"; progress := Some 0;
                last_progress := None; retries := Some attempt;
                start_time := None |}) ;;
      mret {| r_status := "Retried"; r_job_id := Some job_id |}.

(** The body of the loop of [check_stuck_jobs] for one key.  The
    condition of the inner [if] is [a and b]: [b] is evaluated only
    when [a] is true, and each side reads its module-level name when it
    is evaluated. *)
Definition check_one (key : string) : prog unit :=
  job ← act (HGETALL key);
  st ← item (status job) "status";
  if bool_decide (st = "Running") then
    now ← act TIME;
    started ← item (start_time job) "start_time";
    let elapsed_time := now - started in
    p ← item (progress job) "progress";
    lp ← item (last_progress job) "last_progress";
    let progress_diff := p - lp in
    timeout ← load_global cfg "THRESHOLD_TIME";
    stuck ← (if bool_decide (elapsed_time > timeout) then
               threshold ← load_global cfg "PROGRESS_THRESHOLD";
               mret (bool_decide (progress_diff < threshold))
             else mret false);
    if (stuck : bool) then
      job_id ← index (split ":" key) 1;
      fail_job job_id ;;
      mret tt
    else mret tt
  else mret tt.

Definition check_stuck_jobs : prog unit :=
  all_jobs ← act (KEYS "job:");
  for_each all_jobs check_one.

End WithConfig.

(** ** The route [/start-job] of app.py *)

(** The body of the route for a request whose ["job_id"] is a string:
    the response dict and the HTTP status code. *)
Definition route_start_job (job_id : string) : prog (response * Z) :=
  if negb (is_valid_job_id job_id) then
    mret ({| r_status := "Invalid Job ID"; r_job_id := Some job_id |}, 400)
  else
    resp ← start_job job_id;
    mret (resp, if bool_decide (r_status resp = "Accepted") then 200 else 400).

(** ** The stages of a call of [start_job] *)

(** The hash [start_job] writes at time [now], and the dict it returns
    after writing. *)
Definition initial_fields (now : Z) : fields :=
  {| status := Some "Running"; progress := Some 0; last_progress := Some 0;
     retries := Some 0; start_time := Some now |}.

Definition accepted (job_id : string) : response :=
  {| r_status := "Accepted"; r_job_id := Some job_id |}.

Definition duplicate (job_id : string) : response :=
  {| r_status := "Duplicate Job ID"; r_job_id := Some job_id |}.

(** What is left of a call of [start_job] whose membership test answered
    no: the call is about to add the id (stage 0), to read the clock (1),
    to write the hash (2), or has returned (3). *)
Inductive writing (job_id : string) : nat -> prog response -> Prop :=
| writing_sadd :
    writing job_id 0
      (act (SADD job_id) ;;
       now ← act TIME;
       act (HMSET (job_key job_id) (initial_fields now)) ;;
       mret (accepted job_id))
| writing_time :
    writing job_id 1
      (now ← act TIME;
       act (HMSET (job_key job_id) (initial_fields now)) ;;
       mret (accepted job_id))
| writing_hmset now :
    writing job_id 2
      (act (HMSET (job_key job_id) (initial_fields now)) ;;
       mret (accepted job_id))
| writing_returned :
    writing job_id 3 (Ret (accepted job_id)).

(** ** The state machine as a whole *)

(** One call on the job manager by one caller, or time passing. *)
Inductive request :=
| Start (job_id : string)
| Status (job_id : string)
| UpdateProgress (job_id : string) (new_progress : Z)
| Fail (job_id : string)
| Retry (job_id : string)
| Complete (job_id : string)
| CheckStuck
| Tick (t : Z).

Definition serve (cfg : config) (r : request) (w : world) : world :=
  match r with
  | Start job_id => (run (start_job job_id) w).2
  | Status job_id => (run (get_job_status job_id) w).2
  | UpdateProgress job_id p => (run (update_progress job_id p) w).2
  | Fail job_id => (run (fail_job job_id) w).2
  | Retry job_id => (run (retry_job cfg job_id) w).2
  | Complete job_id => (run (complete_job job_id) w).2
  | CheckStuck => (run (check_stuck_jobs cfg) w).2
  | Tick t => with_clock t w
  end.

Definition serve_all (cfg : config) (rs : list request) (w : world) : world :=
  foldl (fun w r => serve cfg r w) w rs.

(** The stores that calls on the job manager can build from an empty
    Redis. *)
Inductive reachable (cfg : config) : world -> Prop :=
| reachable_empty t : reachable cfg (empty_world t)
| reachable_serve w r : reachable cfg w -> reachable cfg (serve cfg r w).

(** [n] calls of the same method by one caller, one after the other:
    what each returned or raised, and the store at the end. *)
Fixpoint calls {A : Type} (n : nat) (p : prog A) (w : world)
    : list (exn + A) * world :=
  match n with
  | O => ([], w)
  | S n' =>
      let '(r, w') := run p w in
      let '(rs, w'') := calls n' p w' in
      (r :: rs, w'')
  end.

(** The record of a job, looked up by id. *)
Definition record (w : world) (job_id : string) : option fields :=
  hashes w !! job_key job_id.

Definition in_flight (j : fields) : Prop :=
  status j = Some "Running" \/ status j = Some "Retrying".

Definition terminal (j : fields) : Prop :=
  status j = Some "Completed" \/ status j = Some "Failed".

(** The active set and the statuses agree. *)
Definition lockstep (w : world) : Prop :=
  forall job_id j, record w job_id = Some j ->
    (job_id ∈ active_jobs w <-> in_flight j).

(** No record counts more retries than the configuration allows. *)
Definition retries_capped (cfg : config) (w : world) : Prop :=
  forall key j n, hashes w !! key = Some j -> retries j = Some n ->
    n <= MAX_RETRIES cfg.

(** A hash that carries its five fields. *)
Definition complete (j : fields) : Prop :=
  is_Some (status j) /\ is_Some (progress j) /\ is_Some (last_progress j) /\
  is_Some (retries j) /\ is_Some (start_time j).

(** ** What one request can do to the store

    The outcomes of [serve], one constructor per way a method changes the
    store ([serve_changes] below proves that [serve] has no others). *)

(** The hash of job [job_id] replaced by [j]. *)
Definition put (job_id : string) (j : fields) (w : world) : world :=
  with_hashes (<[job_key job_id := j]> (hashes w)) w.

Definition with_status (st : string) (j : fields) : fields :=
  {| status := Some st; progress := progress j; last_progress := last_progress j;
     retries := retries j; start_time := start_time j |}.

Inductive changes (cfg : config) (w : world) : request -> world -> Prop :=
| changes_nothing r :
    changes cfg w r w
| changes_clock t :
    changes cfg w (Tick t) (with_clock t w)
| changes_start job_id :
    job_id ∉ active_jobs w ->
    changes cfg w (Start job_id)
      (put job_id
         {| status := Some "Running"; progress := Some 0; last_progress := Some 0;
            retries := Some 0; start_time := Some (clock w) |}
         (with_active ({[job_id]} ∪ active_jobs w) w))
| changes_progress job_id p j old :
    record w job_id = Some j -> status j = Some "Running" -> progress j = Some old ->
    changes cfg w (UpdateProgress job_id p)
      (put job_id
         {| status := status j; progress := Some p; last_progress := Some old;
            retries := retries j; start_time := start_time j |} w)
| changes_fail job_id j :
    record w job_id = Some j ->
    changes cfg w (Fail job_id)
      (with_active (active_jobs w ∖ {[job_id]}) (put job_id (with_status "Failed" j) w))
| changes_complete job_id j :
    record w job_id = Some j ->
    changes cfg w (Complete job_id)
      (with_active (active_jobs w ∖ {[job_id]}) (put job_id (with_status "Completed" j) w))
| changes_retry job_id j n :
    record w job_id = Some j -> retries j = Some n -> n + 1 <= MAX_RETRIES cfg ->
    changes cfg w (Retry job_id)
      (put job_id
         {| status := Some "Retrying"; progress := Some 0;
            last_progress := last_progress j; retries := Some (n + 1);
            start_time := start_time j |} w).

(** ** The other routes of app.py

    Each body is given for a request whose ["job_id"] is a string (and
    whose ["progress"] is an integer); the result is the response dict
    and the HTTP status code.  An exception that leaves the body is what
    Flask answers with a server error. *)

Definition route_job_status (job_id : string) : prog ((response + fields) * Z) :=
  resp ← get_job_status job_id;
  st ← match resp with
       | inl not_found => mret (r_status not_found)
       | inr job => item (status job) "status"
       end;
  mret (resp, if bool_decide (st ≠ "Not Found") then 200 else 404).

Definition route_fail_job (job_id : string) : prog (response * Z) :=
  resp ← fail_job job_id;
  mret (resp, 200).

Definition route_retry_job (cfg : config) (job_id : string) : prog (response * Z) :=
  resp ← retry_job cfg job_id;
  mret (resp, 200).

Definition route_update_progress (job_id : string) (new_progress : Z)
    : prog (response * Z) :=
  if bool_decide (new_progress < 0) then
    mret ({| r_status := "Invalid Progress"; r_job_id := Some job_id |}, 400)
  else
    resp ← update_progress job_id new_progress;
    mret (resp, 200).

Definition route_complete_job (job_id : string) : prog (response * Z) :=
  resp ← complete_job job_id;
  mret (resp, 200).

Definition route_check_stuck_jobs (cfg : config) : prog (response * Z) :=
  check_stuck_jobs cfg ;;
  mret ({| r_status := "Checked for stuck jobs"; r_job_id := None |}, 200).

(** ** Stores built by the job manager *)

Definition known_status (st : string) : Prop :=
  st = "Running" \/ st = "Retrying" \/ st = "Completed" \/ st = "Failed".

(** Every hash is the hash of some job, with a status of the four, the
    two progress fields, a retries count that is not negative and a
    start time. *)
Definition wellformed (w : world) : Prop :=
  forall key j, hashes w !! key = Some j ->
    (exists job_id, key = job_key job_id) /\
    (exists st, status j = Some st /\ known_status st) /\
    is_Some (progress j) /\ is_Some (last_progress j) /\
    (exists n, retries j = Some n /\ 0 <= n) /\
    is_Some (start_time j).

(** The job a request is addressed to. *)
Definition target (r : request) : option string :=
  match r with
  | Start job_id | Status job_id | UpdateProgress job_id _
  | Fail job_id | Retry job_id | Complete job_id => Some job_id
  | CheckStuck | Tick _ => None
  end.

(** [c] occurs in [s]. *)
Fixpoint has_char (c : ascii) (s : string) : bool :=
  match s with
  | "" => false
  | String d s' => Ascii.eqb d c || has_char c s'
  end.

(** [s] without its last character when that is a newline. *)
Fixpoint chomp (s : string) : string :=
  match s with
  | "" => ""
  | String c "" => if Ascii.eqb c Re.newline then "" else s
  | String c s' => String c (chomp s')
  end.

(** ** KubernetesEventTracker (app/kubernetes_events.py) *)

Module K8s.

(** What the tracker reads of an event returned by the API. *)
Record event := {
  involved_object_name : string;
  type : string;
  reason : string;
  message : string;
  last_timestamp : string
}.

(** The dict of a tracked event. *)
Record tracked_event := {
  pod_name : string;
  event_type : string;
  tracked_reason : string;
  tracked_message : string;
  timestamp : string
}.

(** An answer of [read_namespaced_pod]: the pod with its
    [metadata.labels] ([None] when it has none), an [ApiException], or
    any other exception. *)
Inductive pod_read :=
| PodFound (labels : option (gmap string string))
| ApiException
| OtherException.

(** The API of the cluster: [list_namespaced_event namespace] ([None]:
    the call raised) and [read_namespaced_pod name namespace]. *)
Record cluster := {
  list_namespaced_event : string -> option (list event);
  read_namespaced_pod : string -> string -> pod_read
}.

Record tracker := {
  namespace : string;
  label_selector : string
}.

(** [for key, value in selector_pairs]: unpacking a list that has not
    exactly two elements raises [ValueError] ([None]). *)
Definition unpack_pair (piece : list string) : option (string * string) :=
  match piece with
  | [key; value] => Some (key, value)
  | _ => None
  end.

(** The loop of [does_event_match_label_selector]; [None] when it
    raised. *)
Fixpoint selector_loop (labels : gmap string string)
    (selector_pairs : list (list string)) : option bool :=
  match selector_pairs with
  | [] => Some true
  | piece :: rest =>
      match unpack_pair piece with
      | None => None
      | Some (key, value) =>
          if bool_decide (labels !! key ≠ Some value) then Some false
          else selector_loop labels rest
      end
  end.

(** The [except] branch turns any exception into [False]. *)
Definition does_event_match_label_selector
    (labels : gmap string string) (selector : string) : bool :=
  let selector_pairs := map (split "=") (split "," selector) in
  default false (selector_loop labels selector_pairs).

(** [None]: an exception other than [ApiException] left the method. *)
Definition get_labels_from_event (t : tracker) (api : cluster) (e : event)
    : option (gmap string string) :=
  match read_namespaced_pod api (involved_object_name e) (namespace t) with
  | PodFound labels => Some (default ∅ labels)
  | ApiException => Some ∅
  | OtherException => None
  end.

(** The dict [track_events] builds for an event. *)
Definition tracked_of (e : event) : tracked_event :=
  {| pod_name := involved_object_name e; event_type := type e;
     tracked_reason := reason e; tracked_message := message e;
     timestamp := last_timestamp e |}.

(** The loop of [track_events] from an empty [tracked_events]; [None]
    when an exception left it. *)
Fixpoint track_loop (t : tracker) (api : cluster) (events : list event)
    : option (list tracked_event) :=
  match events with
  | [] => Some []
  | e :: rest =>
      labels ← get_labels_from_event t api e;
      if negb (does_event_match_label_selector labels (label_selector t)) then
        track_loop t api rest
      else
        tracked ← track_loop t api rest;
        Some (tracked_of e :: tracked)
  end.

Definition track_events (t : tracker) (api : cluster) : list tracked_event :=
  default [] (events ← list_namespaced_event api (namespace t); track_loop t api events).

(** The pod of the event was read with labels, and they match the
    selector of the tracker. *)
Definition pod_matches (t : tracker) (api : cluster) (e : event) : bool :=
  match read_namespaced_pod api (involved_object_name e) (namespace t) with
  | PodFound (Some labels) => does_event_match_label_selector labels (label_selector t)
  | _ => false
  end.

End K8s.

(** ** LicenseManager (app/license_manager.py)

    The two Redis strings the class uses, as the program writes them:
    the license key, and the start date (Redis holds its ISO text; the
    model holds the instant, in seconds, that [fromisoformat] reads
    back).  [redis.get] answers bytes, as the [.decode()] calls of the
    class expect.  [datetime.now()] reads the clock. *)

Module License.

Record store := {
  license_key : option string;
  start_date : option Z;
  clock : Z
}.

Definition trial_days : Z := 30.

Definition valid_keys : list string :=
  ["PAID-LICENSE-001"; "PAID-LICENSE-002"; "PAID-LICENSE-003";
   "PAID-LICENSE-004"; "PAID-LICENSE-005"].

(** The JSON body and the HTTP status code. *)
Record reply := {
  l_status : string;
  l_message : string;
  l_code : Z
}.

(** The ISO text of an instant, held as bytes (what [redis.get]
    answers) or as a str (what [isoformat] returns). *)
Inductive iso_text :=
| Bytes (instant : Z)
| Str (instant : Z).

(** [x.decode()]: a str has no such method, the call raises
    [AttributeError] ([None]). *)
Definition decode (x : iso_text) : option Z :=
  match x with
  | Bytes instant => Some instant
  | Str _ => None
  end.

(** [(later - earlier).days]: whole days, rounded down. *)
Definition days_between (earlier later : Z) : Z := (later - earlier) `div` 86400.

(** The [except] branch answers for every exception of the body; what
    was written to Redis before it stays written. *)
Definition check_license (s : store) : reply * store :=
  let '(start_text, s') :=
    match start_date s with
    | Some start => (Bytes start, s)
    | None =>
        (Str (clock s),
         {| license_key := license_key s; start_date := Some (clock s);
            clock := clock s |})
    end in
  match decode start_text with
  | None =>
      ({| l_status := "error"; l_message := "Internal server error";
          l_code := 500 |}, s')
  | Some start =>
      let elapsed_days := days_between start (clock s) in
      if match license_key s with
         | Some key => bool_decide (key ∈ valid_keys)
         | None => false
         end
      then ({| l_status := "active"; l_message := "Paid license active.";
               l_code := 200 |}, s')
      else if bool_decide (elapsed_days <= trial_days) then
        ({| l_status := "trial";
            l_message := "Trial active, " +:+ pretty (trial_days - elapsed_days)
                         +:+ " days remaining.";
            l_code := 200 |}, s')
      else
        ({| l_status := "expired";
            l_message := "Trial expired. Please update your license.";
            l_code := 403 |}, s')
  end.

Definition update_license (key : string) (s : store) : reply * store :=
  if bool_decide (key ∈ valid_keys) then
    ({| l_status := "success"; l_message := "License updated successfully.";
        l_code := 200 |},
     {| license_key := Some key; start_date := start_date s; clock := clock s |})
  else
    ({| l_status := "failed"; l_message := "Invalid license key."; l_code := 400 |}, s).

End License.

(** ** Proof steps *)

(** Run a program symbolically, rewriting the lookups of the store with [H]. *)
Ltac run_with H := repeat (progress (cbn; rewrite ?H)).

(** Membership in an active set built with union and difference. *)
Ltac members :=
  rewrite ?elem_of_union, ?elem_of_difference, ?elem_of_singleton; intuition congruence.

(** * Properties *)

(** ** The validator *)

Section Validator.

Import Re.

Lemma app_cons c (a b : string) : String c a +:+ b = String c (a +:+ b).
Proof. reflexivity. Qed.

(** What [cls+$] accepts: a non-empty run of class characters, then the
    end of the string or one final newline. *)
Lemma plus_dollar_spec cls s :
  plus cls (matches [Dollar] false) s = true <->
  exists body, body <> "" /\ all_of cls body = true /\
               (s = body \/ s = body +:+ String newline "").
Proof.
  induction s as [|c s IH]; cbn [plus].
  - split; [discriminate|].
    intros (body & Hne & _ & [Heq|Heq]); [by subst|].
    destruct body; discriminate.
  - rewrite andb_true_iff, orb_true_iff, IH. clear IH. split.
    + intros [Hc [(body & Hne & Hall & Hs)|Hd]].
      * exists (String c body). split; [done|]. split; [cbn; by rewrite Hc|].
        destruct Hs as [->| ->]; [by left|by right].
      * exists (String c ""). split; [done|]. split; [cbn; by rewrite Hc|].
        cbn in Hd. destruct s as [|d [|]]; try discriminate; [by left|].
        right. rewrite andb_true_r in Hd. apply Ascii.eqb_eq in Hd as ->. done.
    + intros (body & Hne & Hall & Hs).
      destruct body as [|b body]; [done|].
      cbn in Hall. apply andb_true_iff in Hall as [Hb Hall].
      assert (c = b /\ (s = body \/ s = body +:+ String newline "")) as [-> Hs'].
      { destruct Hs as [Hs|Hs]; rewrite ?app_cons in Hs; injection Hs; auto. }
      split; [done|].
      destruct body as [|b' body].
      * right. destruct Hs' as [->| ->]; [done|]. reflexivity.
      * left. by exists (String b' body).
Qed.

Lemma is_valid_job_id_spec s :
  is_valid_job_id s = true <->
  exists body, body <> "" /\ all_of job_id_class body = true /\
               (s = body \/ s = body +:+ String newline "").
Proof. apply plus_dollar_spec. Qed.

Lemma newline_outside_class : job_id_class newline = false.
Proof. reflexivity. Qed.

(** C8, at the input that separates the code from the claim: the
    validator accepts [abc] followed by a newline, although the newline
    is a character outside [[A-Za-z0-9-]]; a second trailing newline, a
    trailing space and the empty string are rejected. *)
Theorem is_valid_job_id_accepts_trailing_newline :
  is_valid_job_id ("abc" +:+ String newline "") = true /\
  job_id_class newline = false /\
  is_valid_job_id ("abc" +:+ String newline (String newline "")) = false /\
  is_valid_job_id "abc " = false /\
  is_valid_job_id "" = false.
Proof. repeat split; reflexivity. Qed.

End Validator.

(** ** Running programs *)

Lemma run_bind {A B : Type} (p : prog A) (f : A -> prog B) (w : world) :
  run (p ≫= f) w =
  match run p w with
  | (inl e, w') => (inl e, w')
  | (inr a, w') => run (f a) w'
  end.
Proof.
  revert w. induction p as [a|e|X c k IH]; intros w; try reflexivity.
  change (run (Act c k ≫= f) w) with (let '(x, w') := exec c w in run (k x ≫= f) w').
  cbn [run]. destruct (exec c w) as [x w']. apply IH.
Qed.

Lemma run_step {A : Type} (p : prog A) (w : world) :
  run p w = run (step p w).1 (step p w).2.
Proof. destruct p as [a|e|X c k]; try reflexivity. cbn. by destruct (exec c w). Qed.

Lemma for_each_world {X : Type} (body : X -> prog unit) (l : list X) (w : world) :
  (forall x w0, (run (body x) w0).2 = w0) ->
  (run (for_each l body) w).2 = w.
Proof.
  intros Hbody. induction l as [|x l IH]; [reflexivity|].
  cbn [for_each]. rewrite run_bind.
  specialize (Hbody x w). destruct (run (body x) w) as [[e|[]] w0]; cbn in Hbody; by subst.
Qed.

(** ** Keys and module-level names *)

Lemma job_key_inj a b : job_key a = job_key b -> a = b.
Proof. unfold job_key. apply (inj _). Qed.

Lemma job_key_ne a b : a <> b -> job_key a <> job_key b.
Proof. intros Hne Heq. by apply Hne, job_key_inj. Qed.

Lemma threshold_time_unbound cfg :
  load_global cfg "THRESHOLD_TIME" = Raise (NameError "THRESHOLD_TIME").
Proof. reflexivity. Qed.

Lemma max_retries_bound cfg : load_global cfg "MAX_RETRIES" = Ret (MAX_RETRIES cfg).
Proof. reflexivity. Qed.

(** ** One call, one caller: what each method does to the store *)

Lemma run_start_job_active w job_id :
  job_id ∈ active_jobs w ->
  run (start_job job_id) w =
  (inr {| r_status := "Duplicate Job ID"; r_job_id := Some job_id |}, w).
Proof. intros Hin. unfold start_job. cbn. by rewrite bool_decide_true. Qed.

Lemma run_start_job_fresh w job_id :
  job_id ∉ active_jobs w ->
  run (start_job job_id) w =
  (inr {| r_status := "Accepted"; r_job_id := Some job_id |},
   with_hashes
     (<[job_key job_id :=
          {| status := Some "Running"; progress := Some 0; last_progress := Some 0;
             retries := Some 0; start_time := Some (clock w) |}]> (hashes w))
     (with_active ({[job_id]} ∪ active_jobs w) w)).
Proof. intros Hin. unfold start_job. cbn. by rewrite bool_decide_false. Qed.

Lemma run_update_progress_absent w job_id p :
  record w job_id = None ->
  run (update_progress job_id p) w =
  (inr {| r_status := "Not Found"; r_job_id := None |}, w).
Proof. unfold record, update_progress. intros H. by run_with H. Qed.

Lemma run_update_progress_not_running w job_id p j st :
  record w job_id = Some j -> status j = Some st -> st <> "Running" ->
  run (update_progress job_id p) w =
  (inr {| r_status := "Not Running"; r_job_id := Some job_id |}, w).
Proof.
  unfold record, update_progress. intros H Hst Hne.
  run_with H. rewrite Hst. cbn. by rewrite bool_decide_true.
Qed.

Lemma run_update_progress_running w job_id p j old :
  record w job_id = Some j -> status j = Some "Running" -> progress j = Some old ->
  run (update_progress job_id p) w =
  (inr {| r_status := "Progress Updated"; r_job_id := Some job_id |},
   with_hashes
     (<[job_key job_id :=
          {| status := status j; progress := Some p; last_progress := Some old;
             retries := retries j; start_time := start_time j |}]> (hashes w)) w).
Proof.
  unfold record, update_progress. intros H Hst Hp.
  run_with H. rewrite Hst. cbn. rewrite Hp. cbn.
  rewrite bool_decide_false by (intros Hne; by apply Hne).
  run_with H. unfold hmerge. cbn. by rewrite Hst.
Qed.

Lemma run_fail_job_absent w job_id :
  record w job_id = None ->
  run (fail_job job_id) w = (inr {| r_status := "Not Found"; r_job_id := None |}, w).
Proof. unfold record, fail_job. intros H. by run_with H. Qed.

Lemma run_fail_job_present w job_id j :
  record w job_id = Some j ->
  run (fail_job job_id) w =
  (inr {| r_status := "Failed"; r_job_id := Some job_id |},
   with_active (active_jobs w ∖ {[job_id]})
     (with_hashes
        (<[job_key job_id :=
             {| status := Some "Failed"; progress := progress j;
                last_progress := last_progress j; retries := retries j;
                start_time := start_time j |}]> (hashes w)) w)).
Proof. unfold record, fail_job. intros H. by run_with H. Qed.

Lemma run_complete_job_absent w job_id :
  record w job_id = None ->
  run (complete_job job_id) w = (inr {| r_status := "Not Found"; r_job_id := None |}, w).
Proof. unfold record, complete_job. intros H. by run_with H. Qed.

Lemma run_complete_job_present w job_id j :
  record w job_id = Some j ->
  run (complete_job job_id) w =
  (inr {| r_status := "Completed"; r_job_id := Some job_id |},
   with_active (active_jobs w ∖ {[job_id]})
     (with_hashes
        (<[job_key job_id :=
             {| status := Some "Completed"; progress := progress j;
                last_progress := last_progress j; retries := retries j;
                start_time := start_time j |}]> (hashes w)) w)).
Proof. unfold record, complete_job. intros H. by run_with H. Qed.

Lemma run_retry_job_absent cfg w job_id :
  record w job_id = None ->
  run (retry_job cfg job_id) w = (inr {| r_status := "Not Found"; r_job_id := None |}, w).
Proof. unfold record, retry_job. intros H. by run_with H. Qed.

Lemma run_retry_job_no_count cfg w job_id j :
  record w job_id = Some j -> retries j = None ->
  run (retry_job cfg job_id) w = (inl TypeError, w).
Proof. unfold record, retry_job. intros H Hn. run_with H. by rewrite Hn. Qed.

Lemma run_retry_job_exceeded cfg w job_id j n :
  record w job_id = Some j -> retries j = Some n -> n + 1 > MAX_RETRIES cfg ->
  run (retry_job cfg job_id) w =
  (inr {| r_status := "Max Retries Exceeded"; r_job_id := Some job_id |}, w).
Proof.
  unfold record, retry_job. intros H Hn Hgt. run_with H. rewrite Hn. cbn.
  rewrite max_retries_bound. cbn. by rewrite bool_decide_true.
Qed.

Lemma run_retry_job_retried cfg w job_id j n :
  record w job_id = Some j -> retries j = Some n -> n + 1 <= MAX_RETRIES cfg ->
  run (retry_job cfg job_id) w =
  (inr {| r_status := "Retried"; r_job_id := Some job_id |},
   with_hashes
     (<[job_key job_id :=
          {| status := Some "Retrying"; progress := Some 0;
             last_progress := last_progress j; retries := Some (n + 1);
             start_time := start_time j |}]> (hashes w)) w).
Proof.
  unfold record, retry_job. intros H Hn Hle. run_with H. rewrite Hn. cbn.
  rewrite max_retries_bound. cbn. rewrite bool_decide_false by lia. by run_with H.
Qed.

(** The sweep never gets as far as [fail_job]: the first half of its
    condition reads a name that is not bound. *)
Lemma check_one_world cfg key w : (run (check_one cfg key) w).2 = w.
Proof.
  unfold check_one. cbn.
  destruct (status _) as [st|]; cbn; [|done].
  case_bool_decide; cbn; [|done].
  destruct (start_time _); cbn; [|done].
  destruct (progress _); cbn; [|done].
  by destruct (last_progress _).
Qed.

Lemma check_stuck_jobs_world cfg w : (run (check_stuck_jobs cfg) w).2 = w.
Proof.
  unfold check_stuck_jobs.
  change (run _ w) with
    (run (for_each (exec (KEYS "job:") w).1 (check_one cfg)) w).
  apply for_each_world. intros key w0. apply check_one_world.
Qed.

Lemma check_one_running cfg key w j t0 p lp :
  hashes w !! key = Some j -> status j = Some "Running" ->
  start_time j = Some t0 -> progress j = Some p -> last_progress j = Some lp ->
  run (check_one cfg key) w = (inl (NameError "THRESHOLD_TIME"), w).
Proof.
  intros H Hst Ht Hp Hlp. unfold check_one. run_with H.
  rewrite Hst. cbn. rewrite bool_decide_true by done. cbn.
  rewrite Ht. cbn. rewrite Hp. cbn. by rewrite Hlp.
Qed.

Lemma get_job_status_world w job_id : (run (get_job_status job_id) w).2 = w.
Proof. unfold get_job_status. cbn. by destruct (bool_decide _). Qed.

(** ** start_job *)

(** C7. Duplicate-start rejection and initial record: when the id is in
    the active set, [start_job] returns "Duplicate Job ID" and the store
    is the same store; when it is not, [start_job] returns "Accepted",
    the id joins the active set and its record is status Running,
    progress 0, last_progress 0, retries 0, start_time the current time. *)
Theorem start_job_duplicate_or_initial_record (w : world) (job_id : string) :
  (job_id ∈ active_jobs w ->
   run (start_job job_id) w =
   (inr {| r_status := "Duplicate Job ID"; r_job_id := Some job_id |}, w)) /\
  (job_id ∉ active_jobs w ->
   run (start_job job_id) w =
   (inr {| r_status := "Accepted"; r_job_id := Some job_id |},
    {| hashes :=
         <[job_key job_id :=
             {| status := Some "Running"; progress := Some 0;
                last_progress := Some 0; retries := Some 0;
                start_time := Some (clock w) |}]> (hashes w);
       active_jobs := {[job_id]} ∪ active_jobs w;
       clock := clock w |})).
Proof.
  split; intros Hin.
  - by apply run_start_job_active.
  - by rewrite run_start_job_fresh.
Qed.

Lemma start_job_duplicate_or_initial_record_witness :
  (let w := serve_all default_config [Tick 7; Start "job-1"; UpdateProgress "job-1" 40]
              (empty_world 0) in
   "job-1" ∈ active_jobs w /\
   run (start_job "job-1") w =
   (inr {| r_status := "Duplicate Job ID"; r_job_id := Some "job-1" |}, w)) /\
  (("job-1" ∉ active_jobs (empty_world 7)) /\
   (run (start_job "job-1") (empty_world 7)).1 =
   inr {| r_status := "Accepted"; r_job_id := Some "job-1" |}).
Proof.
  split.
  - assert ("job-1" ∈ active_jobs
              (serve_all default_config
                 [Tick 7; Start "job-1"; UpdateProgress "job-1" 40] (empty_world 0)))
      as Hin by (by vm_compute).
    split; [exact Hin|].
    exact (proj1 (start_job_duplicate_or_initial_record _ "job-1") Hin).
  - assert ("job-1" ∉ active_jobs (empty_world 7)) as Hout
      by apply not_elem_of_empty.
    split; [exact Hout|].
    by rewrite (proj2 (start_job_duplicate_or_initial_record _ "job-1") Hout).
Defined.

(** C10. [start_job] checks nothing about the syntax of the id: for
    every string that is not in the active set, valid or not, it creates
    the record, adds the id to the active set and returns "Accepted".
    The check is in the route: for an id the validator rejects the route
    answers "Invalid Job ID" with code 400 and the store is untouched;
    for an id it accepts the route is [start_job] with code 200. *)
Theorem start_job_accepts_any_inactive_id (w : world) (job_id : string) :
  job_id ∉ active_jobs w ->
  (run (start_job job_id) w).1 = inr {| r_status := "Accepted"; r_job_id := Some job_id |} /\
  record (run (start_job job_id) w).2 job_id =
    Some {| status := Some "Running"; progress := Some 0; last_progress := Some 0;
            retries := Some 0; start_time := Some (clock w) |} /\
  job_id ∈ active_jobs (run (start_job job_id) w).2 /\
  (is_valid_job_id job_id = false ->
   run (route_start_job job_id) w =
   (inr ({| r_status := "Invalid Job ID"; r_job_id := Some job_id |}, 400), w)) /\
  (is_valid_job_id job_id = true ->
   run (route_start_job job_id) w =
   (inr ({| r_status := "Accepted"; r_job_id := Some job_id |}, 200),
    (run (start_job job_id) w).2)).
Proof.
  intros Hout. rewrite run_start_job_fresh by done. cbn [fst snd].
  split; [done|]. split; [apply lookup_insert_eq|].
  split; [apply elem_of_union_l; by apply elem_of_singleton|].
  unfold route_start_job. split; intros ->; cbn [negb]; [done|].
  rewrite run_bind, run_start_job_fresh by done. done.
Qed.

Lemma start_job_accepts_any_inactive_id_witness :
  is_valid_job_id "" = false /\
  is_valid_job_id "a b" = false /\
  (run (start_job "") (empty_world 0)).1 =
    inr {| r_status := "Accepted"; r_job_id := Some "" |} /\
  (run (start_job "a b") (empty_world 0)).1 =
    inr {| r_status := "Accepted"; r_job_id := Some "a b" |} /\
  run (route_start_job "a b") (empty_world 0) =
    (inr ({| r_status := "Invalid Job ID"; r_job_id := Some "a b" |}, 400), empty_world 0).
Proof.
  assert (forall s : string, s ∉ active_jobs (empty_world 0)) as Hout
    by (intros s; apply not_elem_of_empty).
  split; [reflexivity|]. split; [reflexivity|].
  split; [exact (proj1 (start_job_accepts_any_inactive_id _ "" (Hout ""))) |].
  split; [exact (proj1 (start_job_accepts_any_inactive_id _ "a b" (Hout "a b"))) |].
  exact (proj1 (proj2 (proj2 (proj2
           (start_job_accepts_any_inactive_id _ "a b" (Hout "a b"))))) eq_refl).
Defined.

(** ** update_progress *)

(** C5. The contract of [update_progress]: with no record for the id it
    returns "Not Found" and the store is the same; with a record whose
    status is not Running it returns "Not Running" and the store is the
    same; with a record whose status is Running it returns "Progress
    Updated", last_progress becomes the progress held before and
    progress the new value, nothing else changing. *)
Theorem update_progress_contract (w : world) (job_id : string) (p : Z) :
  (record w job_id = None ->
   run (update_progress job_id p) w =
   (inr {| r_status := "Not Found"; r_job_id := None |}, w)) /\
  (forall j st, record w job_id = Some j -> status j = Some st -> st <> "Running" ->
   run (update_progress job_id p) w =
   (inr {| r_status := "Not Running"; r_job_id := Some job_id |}, w)) /\
  (forall j old, record w job_id = Some j -> status j = Some "Running" ->
   progress j = Some old ->
   run (update_progress job_id p) w =
   (inr {| r_status := "Progress Updated"; r_job_id := Some job_id |},
    {| hashes :=
         <[job_key job_id :=
             {| status := Some "Running"; progress := Some p;
                last_progress := Some old; retries := retries j;
                start_time := start_time j |}]> (hashes w);
       active_jobs := active_jobs w;
       clock := clock w |})).
Proof.
  split; [apply run_update_progress_absent|].
  split; [apply run_update_progress_not_running|].
  intros j old Hj Hst Hp.
  rewrite (run_update_progress_running _ _ _ _ _ Hj Hst Hp). by rewrite Hst.
Qed.

Lemma update_progress_contract_witness :
  run (update_progress "nonexistent" 5) (empty_world 0) =
    (inr {| r_status := "Not Found"; r_job_id := None |}, empty_world 0) /\
  (let w := serve_all default_config [Start "a"; UpdateProgress "a" 4; Complete "a"]
              (empty_world 0) in
   run (update_progress "a" 9) w =
     (inr {| r_status := "Not Running"; r_job_id := Some "a" |}, w)) /\
  (let w := serve_all default_config [Start "a"; UpdateProgress "a" 4] (empty_world 0) in
   record (run (update_progress "a" 9) w).2 "a" =
     Some {| status := Some "Running"; progress := Some 9; last_progress := Some 4;
             retries := Some 0; start_time := Some 0 |}).
Proof.
  split; [|split].
  - apply (proj1 (update_progress_contract (empty_world 0) "nonexistent" 5)).
    reflexivity.
  - cbv zeta.
    eapply (proj1 (proj2 (update_progress_contract _ "a" 9)));
      [by vm_compute | reflexivity | discriminate].
  - cbv zeta.
    erewrite (proj2 (proj2 (update_progress_contract _ "a" 9)));
      [| by vm_compute | reflexivity | reflexivity].
    by vm_compute.
Defined.

(** ** The state machine: every request is one of the listed changes *)

Lemma record_put_eq w job_id j : record (put job_id j w) job_id = Some j.
Proof. apply lookup_insert_eq. Qed.

Lemma record_put_ne w job_id other j :
  other <> job_id -> record (put job_id j w) other = record w other.
Proof. intros Hne. apply lookup_insert_ne. by apply job_key_ne. Qed.

Lemma serve_changes cfg r w : changes cfg w r (serve cfg r w).
Proof.
  destruct r as [job_id|job_id|job_id p|job_id|job_id|job_id| |t]; cbn [serve].
  - destruct (decide (job_id ∈ active_jobs w)) as [Hin|Hout].
    + rewrite run_start_job_active by done. constructor.
    + rewrite run_start_job_fresh by done. by apply changes_start.
  - rewrite get_job_status_world. constructor.
  - destruct (record w job_id) as [j|] eqn:Hj;
      [|rewrite run_update_progress_absent by done; constructor].
    destruct (status j) as [st|] eqn:Hst.
    + destruct (decide (st = "Running")) as [->|Hne];
        [|erewrite run_update_progress_not_running by done; constructor].
      destruct (progress j) as [old|] eqn:Hp.
      * erewrite run_update_progress_running by done. by eapply changes_progress.
      * unfold record in Hj. unfold update_progress. run_with Hj.
        rewrite Hst. cbn. rewrite bool_decide_false by (intros Hne; by apply Hne).
        cbn. rewrite Hp. constructor.
    + unfold record in Hj. unfold update_progress. run_with Hj.
      rewrite Hst. constructor.
  - destruct (record w job_id) as [j|] eqn:Hj.
    + erewrite run_fail_job_present by done. by apply changes_fail.
    + rewrite run_fail_job_absent by done. constructor.
  - destruct (record w job_id) as [j|] eqn:Hj;
      [|rewrite run_retry_job_absent by done; constructor].
    destruct (retries j) as [n|] eqn:Hn;
      [|erewrite run_retry_job_no_count by done; constructor].
    destruct (decide (n + 1 <= MAX_RETRIES cfg)).
    + erewrite run_retry_job_retried by done. by eapply changes_retry.
    + erewrite run_retry_job_exceeded by (done || lia). constructor.
  - destruct (record w job_id) as [j|] eqn:Hj.
    + erewrite run_complete_job_present by done. by apply changes_complete.
    + rewrite run_complete_job_absent by done. constructor.
  - rewrite check_stuck_jobs_world. constructor.
  - constructor.
Qed.

(** ** retry_job *)

(** C3, as stated, fails: a job started at time 100 and retried at time
    500 keeps start_time 100; [retry_job] writes status, progress and
    retries and nothing else. *)
Lemma retry_job_start_time_not_reset :
  let w := serve_all default_config [Tick 100; Start "a"; Tick 500] (empty_world 0) in
  ~ (forall j n, record w "a" = Some j -> retries j = Some n ->
       n + 1 <= MAX_RETRIES default_config ->
       exists j',
         (run (retry_job default_config "a") w).1 =
           inr {| r_status := "Retried"; r_job_id := Some "a" |} /\
         record (run (retry_job default_config "a") w).2 "a" = Some j' /\
         status j' = Some "Retrying" /\ progress j' = Some 0 /\
         retries j' = Some (n + 1) /\ start_time j' = Some (clock w)).
Proof.
  intros w Hclaim.
  destruct (Hclaim {| status := Some "Running"; progress := Some 0;
                      last_progress := Some 0; retries := Some 0;
                      start_time := Some 100 |} 0)
    as (j' & _ & Hrec & _ & _ & _ & Htime); [by vm_compute | done | by vm_compute |].
  vm_compute in Hrec. injection Hrec as <-. discriminate Htime.
Qed.

(** C3, amended.  For every existing record with a retries count [n]
    such that [n + 1] does not exceed MAX_RETRIES, [retry_job] returns
    "Retried" and the resulting record has status Retrying, progress 0
    and retries [n + 1]; its start_time is not reset, it keeps the value
    it had (and so does last_progress). *)
Theorem retry_job_success_postcondition
    (cfg : config) (w : world) (job_id : string) (j : fields) (n : Z) :
  record w job_id = Some j -> retries j = Some n -> n + 1 <= MAX_RETRIES cfg ->
  (run (retry_job cfg job_id) w).1 =
    inr {| r_status := "Retried"; r_job_id := Some job_id |} /\
  record (run (retry_job cfg job_id) w).2 job_id =
    Some {| status := Some "Retrying"; progress := Some 0;
            last_progress := last_progress j; retries := Some (n + 1);
            start_time := start_time j |}.
Proof.
  intros Hj Hn Hle. erewrite run_retry_job_retried by done.
  split; [done|]. apply lookup_insert_eq.
Qed.

Lemma retry_job_success_postcondition_witness :
  let w := serve_all default_config [Tick 100; Start "a"; Tick 500] (empty_world 0) in
  record (run (retry_job default_config "a") w).2 "a" =
    Some {| status := Some "Retrying"; progress := Some 0; last_progress := Some 0;
            retries := Some 1; start_time := Some 100 |}.
Proof.
  intros w.
  apply (retry_job_success_postcondition default_config w "a"
           {| status := Some "Running"; progress := Some 0; last_progress := Some 0;
              retries := Some 0; start_time := Some 100 |} 0);
    [by vm_compute | reflexivity | by vm_compute].
Defined.

(** The retries count is within the cap after any one request. *)
Lemma retries_capped_serve cfg r w :
  0 <= MAX_RETRIES cfg -> retries_capped cfg w -> retries_capped cfg (serve cfg r w).
Proof.
  intros Hmax Hcap.
  destruct (serve_changes cfg r w) as [r| |job_id Hout|job_id p j old Hj Hst Hp
    |job_id j Hj|job_id j Hj|job_id j m Hj Hm Hle]; try done;
    intros key j' n; cbn;
    (destruct (decide (key = job_key job_id)) as [->|Hne];
     [rewrite lookup_insert_eq; intros [= <-]; cbn
     |rewrite lookup_insert_ne by done; apply Hcap]).
  - by intros [= <-].
  - by apply (Hcap _ _ _ Hj).
  - by apply (Hcap _ _ _ Hj).
  - by apply (Hcap _ _ _ Hj).
  - by intros [= <-].
Qed.

Lemma retries_capped_reachable cfg w :
  0 <= MAX_RETRIES cfg -> reachable cfg w -> retries_capped cfg w.
Proof.
  intros Hmax Hreach. induction Hreach as [t|w r Hreach IH].
  - intros key j n Hj. cbn in Hj. by rewrite lookup_empty in Hj.
  - by apply retries_capped_serve.
Qed.

(** C6. The retry cap.  (1) With MAX_RETRIES a count (not negative), no
    record of a store built by calls on the job manager has retries
    above MAX_RETRIES.  (2) A [retry_job] whose increment would exceed
    MAX_RETRIES returns "Max Retries Exceeded" and the store is the
    same.  (3) With MAX_RETRIES = 3, four [retry_job] calls in a row on a
    job that has not been retried return Retried, Retried, Retried, Max
    Retries Exceeded, and retries ends at 3. *)
Theorem retries_never_exceed_max_retries (cfg : config) :
  (0 <= MAX_RETRIES cfg -> forall w, reachable cfg w -> retries_capped cfg w) /\
  (forall w job_id j n,
     record w job_id = Some j -> retries j = Some n -> n + 1 > MAX_RETRIES cfg ->
     run (retry_job cfg job_id) w =
     (inr {| r_status := "Max Retries Exceeded"; r_job_id := Some job_id |}, w)) /\
  (MAX_RETRIES cfg = 3 ->
   forall w job_id j, record w job_id = Some j -> retries j = Some 0 ->
     exists w',
       calls 4 (retry_job cfg job_id) w =
       ([inr {| r_status := "Retried"; r_job_id := Some job_id |};
         inr {| r_status := "Retried"; r_job_id := Some job_id |};
         inr {| r_status := "Retried"; r_job_id := Some job_id |};
         inr {| r_status := "Max Retries Exceeded"; r_job_id := Some job_id |}], w') /\
       record w' job_id ≫= retries = Some 3).
Proof.
  split; [intros Hmax w; by apply retries_capped_reachable|].
  split; [apply run_retry_job_exceeded|].
  intros Hmax w job_id j Hj Hn. eexists. cbn [calls].
  erewrite run_retry_job_retried by (done || lia).
  erewrite run_retry_job_retried by (apply record_put_eq || done || cbn; lia).
  erewrite run_retry_job_retried by (apply record_put_eq || done || cbn; lia).
  erewrite run_retry_job_exceeded by (apply record_put_eq || done || cbn; lia).
  split; [reflexivity|].
  unfold record. cbn. by rewrite lookup_insert_eq.
Qed.

Lemma retries_never_exceed_max_retries_witness :
  retries_capped default_config
    (serve_all default_config
       [Start "a"; Retry "a"; Retry "a"; Retry "a"; Retry "a"] (empty_world 0)) /\
  (let w := serve_all default_config [Start "a"; Retry "a"; Retry "a"; Retry "a"]
              (empty_world 0) in
   run (retry_job default_config "a") w =
   (inr {| r_status := "Max Retries Exceeded"; r_job_id := Some "a" |}, w)) /\
  (let w := serve_all default_config [Start "a"] (empty_world 0) in
   (calls 4 (retry_job default_config "a") w).1 =
   [inr {| r_status := "Retried"; r_job_id := Some "a" |};
    inr {| r_status := "Retried"; r_job_id := Some "a" |};
    inr {| r_status := "Retried"; r_job_id := Some "a" |};
    inr {| r_status := "Max Retries Exceeded"; r_job_id := Some "a" |}]).
Proof.
  split; [|split].
  - apply (proj1 (retries_never_exceed_max_retries default_config)); [done|].
    cbn [serve_all foldl]. repeat apply reachable_serve. apply reachable_empty.
  - cbv zeta.
    eapply (proj1 (proj2 (retries_never_exceed_max_retries default_config)) _ "a" _ 3);
      [by vm_compute | reflexivity | done].
  - cbv zeta.
    destruct (proj2 (proj2 (retries_never_exceed_max_retries default_config)) eq_refl
                (serve_all default_config [Start "a"] (empty_world 0)) "a"
                {| status := Some "Running"; progress := Some 0; last_progress := Some 0;
                   retries := Some 0; start_time := Some 0 |})
      as (w' & Hcalls & _); [by vm_compute | reflexivity |].
    by rewrite Hcalls.
Defined.

(** ** The active set and the statuses *)

(** Every request other than a retry of a job that is not in flight
    keeps the active set and the statuses in agreement. *)
Lemma lockstep_serve cfg r w :
  lockstep w ->
  (forall job_id j, r = Retry job_id -> record w job_id = Some j -> in_flight j) ->
  lockstep (serve cfg r w).
Proof.
  intros Hlock Hretry.
  destruct (serve_changes cfg r w) as [r| |job_id Hout|job_id p j old Hj Hst Hp
    |job_id j Hj|job_id j Hj|job_id j m Hj Hm Hle]; try done;
    intros other j';
    (destruct (decide (other = job_id)) as [->|Hne];
     [rewrite ?record_put_eq; unfold record; cbn; rewrite ?lookup_insert_eq;
      intros [= <-]
     |unfold record; cbn; rewrite lookup_insert_ne by (by apply job_key_ne);
      intros Hother; specialize (Hlock other j' Hother)]);
    unfold in_flight in *; cbn.
  - split; [by left|members].
  - members.
  - rewrite <- (Hlock _ _ Hj). done.
  - done.
  - split; [members|]. by intros [|].
  - members.
  - split; [members|]. by intros [|].
  - members.
  - split; [by right|]. intros _. apply (Hlock _ _ Hj). by eapply Hretry.
  - done.
Qed.

(** C1, at the input that separates the code from the claim.  After
    [start_job] and [fail_job] the active set and the status agree (the
    job is Failed and not active); [retry_job] then sets the status to
    Retrying and does not add the id to the active set: the record is in
    flight, the id is not a member. *)
Theorem retry_job_after_fail_breaks_lockstep :
  let w0 := serve_all default_config [Start "a"; Fail "a"] (empty_world 0) in
  let w := serve default_config (Retry "a") w0 in
  lockstep w0 /\
  reachable default_config w /\
  record w "a" =
    Some {| status := Some "Retrying"; progress := Some 0; last_progress := Some 0;
            retries := Some 1; start_time := Some 0 |} /\
  ("a" ∉ active_jobs w) /\
  ~ lockstep w.
Proof.
  intros w0 w.
  assert (record w "a" =
    Some {| status := Some "Retrying"; progress := Some 0; last_progress := Some 0;
            retries := Some 1; start_time := Some 0 |}) as Hrec by (by vm_compute).
  assert ("a" ∉ active_jobs w) as Hout by (by vm_compute).
  split; [|split; [|split; [done|split; [done|]]]].
  - unfold w0. cbn [serve_all foldl]. repeat apply lockstep_serve; try done.
  - unfold w, w0. cbn [serve_all foldl]. repeat apply reachable_serve.
    apply reachable_empty.
  - intros Hlock. apply Hout, (Hlock "a" _ Hrec). by right.
Qed.

(** ** check_stuck_jobs *)

Lemma keys_job_spec w key :
  key ∈ (exec (KEYS "job:") w).1 <->
  Is_true (String.prefix "job:" key) /\ is_Some (hashes w !! key).
Proof.
  cbn. rewrite list_elem_of_filter, list_elem_of_fmap. f_equiv. split.
  - intros ([k j] & -> & Hin). apply elem_of_map_to_list in Hin. by exists j.
  - intros [j Hj]. exists (key, j). split; [done|]. by apply elem_of_map_to_list.
Qed.

Lemma check_one_not_running cfg key w j st :
  hashes w !! key = Some j -> status j = Some st -> st <> "Running" ->
  run (check_one cfg key) w = (inr tt, w).
Proof.
  intros H Hst Hne. unfold check_one. run_with H. rewrite Hst. cbn.
  by rewrite bool_decide_false.
Qed.

Lemma for_each_check_one_running cfg w (keys : list string) :
  (forall key, key ∈ keys -> exists j, hashes w !! key = Some j /\ complete j) ->
  (exists key j, key ∈ keys /\ hashes w !! key = Some j /\ status j = Some "Running") ->
  run (for_each keys (check_one cfg)) w = (inl (NameError "THRESHOLD_TIME"), w).
Proof.
  induction keys as [|key keys IH]; intros Hall (key' & j' & Hin & Hj' & Hrun).
  { by apply elem_of_nil in Hin. }
  cbn [for_each]. rewrite run_bind.
  destruct (Hall key) as (j & Hj & [st Hst] & [p Hp] & [lp Hlp] & _ & [t0 Ht]);
    [by left|].
  destruct (decide (st = "Running")) as [->|Hne].
  - by erewrite check_one_running.
  - erewrite check_one_not_running by done. apply IH.
    + intros k Hk. apply Hall. by right.
    + exists key', j'. split; [|done].
      apply elem_of_cons in Hin as [->|]; [|done]. congruence.
Qed.

(** As soon as a Running job is stored (all hashes carrying their five
    fields), the sweep raises [NameError] and fails no job. *)
Lemma check_stuck_jobs_raises cfg w job_id j :
  (forall key j0, hashes w !! key = Some j0 -> complete j0) ->
  record w job_id = Some j -> status j = Some "Running" ->
  run (check_stuck_jobs cfg) w = (inl (NameError "THRESHOLD_TIME"), w).
Proof.
  intros Hall Hj Hst. unfold check_stuck_jobs.
  change (run _ w) with (run (for_each (exec (KEYS "job:") w).1 (check_one cfg)) w).
  apply for_each_check_one_running.
  - intros key [_ [j0 Hj0]]%keys_job_spec. exists j0. eauto.
  - exists (job_key job_id), j. split; [|done].
    apply keys_job_spec. split; [by destruct job_id|]. by exists j.
Qed.

(** C2, at the input that separates the code from the claim: the
    scenario of the spec with THRESHOLD_TIMEOUT = 300 and
    PROGRESS_THRESHOLD = 10.  Two jobs start at time 1000; at time 1400
    the progress of "slow" has advanced by 3 and that of "fast" by 15.
    The sweep raises [NameError] on the name THRESHOLD_TIME, and "slow",
    elapsed 400 > 300 and delta 3 < 10, is still Running. *)
Theorem check_stuck_jobs_fails_no_job :
  let w := serve_all default_config
             [Tick 1000; Start "slow"; Start "fast"; UpdateProgress "slow" 3;
              UpdateProgress "fast" 15; Tick 1400] (empty_world 0) in
  record w "slow" =
    Some {| status := Some "Running"; progress := Some 3; last_progress := Some 0;
            retries := Some 0; start_time := Some 1000 |} /\
  record w "fast" =
    Some {| status := Some "Running"; progress := Some 15; last_progress := Some 0;
            retries := Some 0; start_time := Some 1000 |} /\
  clock w = 1400 /\
  run (check_stuck_jobs default_config) w = (inl (NameError "THRESHOLD_TIME"), w) /\
  module_globals default_config !! "THRESHOLD_TIME" = None.
Proof.
  intros w.
  assert (record w "slow" =
    Some {| status := Some "Running"; progress := Some 3; last_progress := Some 0;
            retries := Some 0; start_time := Some 1000 |}) as Hslow by (by vm_compute).
  split; [done|]. split; [by vm_compute|]. split; [by vm_compute|].
  split; [|done].
  by vm_compute.
Qed.

(** ** Terminal states *)

Lemma terminal_not_in_flight j : terminal j -> ~ in_flight j.
Proof. unfold terminal, in_flight. intros [H|H] [H'|H']; congruence. Qed.

(** C4, as stated, fails: a Completed job is Running again after
    [start_job] on its id. *)
Lemma completed_job_restarted :
  let w := serve_all default_config [Start "a"; Complete "a"] (empty_world 0) in
  ~ (forall r j j', record w "a" = Some j -> terminal j ->
       record (serve default_config r w) "a" = Some j' -> ~ in_flight j').
Proof.
  intros w Hclaim.
  apply (Hclaim (Start "a")
           {| status := Some "Completed"; progress := Some 0; last_progress := Some 0;
              retries := Some 0; start_time := Some 0 |}
           {| status := Some "Running"; progress := Some 0; last_progress := Some 0;
              retries := Some 0; start_time := Some 0 |});
    [by vm_compute | by left | by vm_compute | by left].
Qed.

(** C4, amended.  A record whose status is Completed or Failed keeps a
    terminal status (so it is neither Running nor Retrying) under every
    request other than [start_job] and [retry_job] on its own id.
    [start_job] on its id makes it Running when the id is not in the
    active set and leaves it when it is; [retry_job] on its id makes it
    Retrying when its retries plus one does not exceed MAX_RETRIES and
    leaves it when it does. *)
Theorem terminal_left_only_by_start_or_retry
    (cfg : config) (w : world) (job_id : string) (j : fields) :
  record w job_id = Some j -> terminal j ->
  (forall r, r <> Start job_id -> r <> Retry job_id ->
     exists j', record (serve cfg r w) job_id = Some j' /\ terminal j' /\ ~ in_flight j') /\
  ((job_id ∉ active_jobs w) ->
     record (serve cfg (Start job_id) w) job_id ≫= status = Some "Running") /\
  (job_id ∈ active_jobs w -> record (serve cfg (Start job_id) w) job_id = Some j) /\
  (forall n, retries j = Some n -> n + 1 <= MAX_RETRIES cfg ->
     record (serve cfg (Retry job_id) w) job_id ≫= status = Some "Retrying") /\
  (forall n, retries j = Some n -> n + 1 > MAX_RETRIES cfg ->
     record (serve cfg (Retry job_id) w) job_id = Some j).
Proof.
  intros Hj Hterm. split; [|split; [|split; [|split]]].
  - intros r Hstart Hretry.
    assert (exists j', record (serve cfg r w) job_id = Some j' /\ terminal j') as
      (j' & Hj' & Hterm'); [|by eauto using terminal_not_in_flight].
    destruct (serve_changes cfg r w) as [r| |other Hout|other p j0 old Hj0 Hst Hp
      |other j0 Hj0|other j0 Hj0|other j0 m Hj0 Hm Hle]; try by eauto.
    + rewrite record_put_ne by congruence. eauto.
    + destruct (decide (job_id = other)) as [->|Hne].
      * rewrite Hj in Hj0. injection Hj0 as ->.
        by destruct (terminal_not_in_flight _ Hterm); left.
      * rewrite record_put_ne by done. eauto.
    + destruct (decide (job_id = other)) as [->|Hne].
      * eexists. split; [apply record_put_eq|]. by right.
      * unfold record; cbn. rewrite lookup_insert_ne by (by apply job_key_ne). eauto.
    + destruct (decide (job_id = other)) as [->|Hne].
      * eexists. split; [apply record_put_eq|]. by left.
      * unfold record; cbn. rewrite lookup_insert_ne by (by apply job_key_ne). eauto.
    + rewrite record_put_ne by congruence. eauto.
  - intros Hout. cbn [serve]. rewrite run_start_job_fresh by done.
    unfold record; cbn. by rewrite lookup_insert_eq.
  - intros Hin. cbn [serve]. by rewrite run_start_job_active.
  - intros n Hn Hle. cbn [serve]. erewrite run_retry_job_retried by done.
    unfold record; cbn. by rewrite lookup_insert_eq.
  - intros n Hn Hgt. cbn [serve]. by erewrite run_retry_job_exceeded.
Qed.

Lemma terminal_left_only_by_start_or_retry_witness :
  let w := serve_all default_config [Start "a"; Fail "a"] (empty_world 0) in
  (exists j', record (serve default_config (Complete "a") w) "a" = Some j' /\
              terminal j' /\ ~ in_flight j') /\
  record (serve default_config (Start "a") w) "a" ≫= status = Some "Running" /\
  record (serve default_config (Retry "a") w) "a" ≫= status = Some "Retrying".
Proof.
  intros w.
  assert (record w "a" =
          Some {| status := Some "Failed"; progress := Some 0; last_progress := Some 0;
                  retries := Some 0; start_time := Some 0 |}) as Hj by (by vm_compute).
  destruct (terminal_left_only_by_start_or_retry default_config w "a" _ Hj)
    as (Hother & Hstart & _ & Hretry & _); [by right|].
  split; [by apply Hother|].
  split; [apply Hstart; by vm_compute|].
  by apply (Hretry 0).
Defined.

(** ** Two callers at once *)

(** C9, as stated, fails: with the two calls interleaved so that both
    test membership before either adds the id, both [start_job "a"]
    return "Accepted". *)
Lemma concurrent_start_job_both_insert :
  ~ (forall sched r1 r2 w',
       interleave sched (start_job "a") (start_job "a") (empty_world 0) =
         (Ret r1, Ret r2, w') ->
       ~ (r_status r1 = "Accepted" /\ r_status r2 = "Accepted")).
Proof.
  intros Hclaim.
  by apply (Hclaim [First; Second; First; First; First; Clock 1; Second; Second; Second]
              {| r_status := "Accepted"; r_job_id := Some "a" |}
              {| r_status := "Accepted"; r_job_id := Some "a" |}
              (interleave
                 [First; Second; First; First; First; Clock 1; Second; Second; Second]
                 (start_job "a") (start_job "a") (empty_world 0)).2).
Qed.

(** The schedule seen from the other caller. *)
Lemma interleave_swap {A B : Type} sched (p : prog A) (q : prog B) w :
  interleave (exchanged <$> sched) q p w =
  ((interleave sched p q w).1.2, (interleave sched p q w).1.1, (interleave sched p q w).2).
Proof.
  revert p q w. induction sched as [|[| |t] sched IH]; intros p q w; cbn.
  - done.
  - destruct (step p w) as [p' w']. apply IH.
  - destruct (step q w) as [q' w']. apply IH.
  - apply IH.
Qed.

Lemma callers_swap sched :
  callers (exchanged <$> sched) = negb <$> callers sched.
Proof.
  induction sched as [|[| |t] sched IH]; cbn; [done|..]; unfold callers in *; cbn;
    by rewrite ?IH.
Qed.

Lemma turns_first sched :
  turns true (First :: sched) = S (turns true sched) /\
  turns false (First :: sched) = turns false sched.
Proof. done. Qed.

Lemma turns_second sched :
  turns true (Second :: sched) = turns true sched /\
  turns false (Second :: sched) = S (turns false sched).
Proof. done. Qed.

Lemma turns_clock b t sched : turns b (Clock t :: sched) = turns b sched.
Proof. done. Qed.

Lemma turns_swap b sched : turns b (exchanged <$> sched) = turns (negb b) sched.
Proof.
  unfold turns. rewrite callers_swap.
  induction (callers sched) as [|c l IH]; [done|].
  rewrite fmap_cons, !filter_cons.
  destruct c, b; cbn [negb]; repeat case_decide; try done; cbn; by rewrite IH.
Qed.

(** The first command of [start_job] is the membership test alone. *)
Lemma step_start_job w job_id :
  step (start_job job_id) w =
  (if bool_decide (job_id ∈ active_jobs w) then Ret (duplicate job_id)
   else act (SADD job_id) ;;
        now ← act TIME;
        act (HMSET (job_key job_id) (initial_fields now)) ;;
        mret (accepted job_id),
   w).
Proof. unfold start_job. cbn. by destruct (bool_decide _). Qed.

(** One more command of a call that is writing. *)
Lemma writing_step job_id n p w :
  writing job_id n p ->
  writing job_id ((n + 1) `min` 3) (step p w).1 /\
  (job_id ∈ active_jobs w -> job_id ∈ active_jobs (step p w).2) /\
  ((exists t, record w job_id = Some (initial_fields t)) ->
   exists t, record (step p w).2 job_id = Some (initial_fields t)) /\
  (n = 0%nat -> job_id ∈ active_jobs (step p w).2) /\
  (n = 2%nat -> exists t, record (step p w).2 job_id = Some (initial_fields t)).
Proof.
  destruct 1; cbn.
  - split; [apply writing_time|]. repeat split; try done; intros; members.
  - split; [apply writing_hmset|]. by repeat split.
  - split; [apply writing_returned|]. unfold record; cbn. rewrite lookup_insert_eq.
    repeat split; try done; intros; by exists now.
  - split; [apply writing_returned|]. by repeat split.
Qed.

Lemma writing_3 job_id p : writing job_id 3 p -> p = Ret (accepted job_id).
Proof. by inversion 1. Qed.

(** Both callers are writing: every turn moves its caller one stage on. *)
Lemma both_writing job_id sched : forall w p q (n m : nat),
  writing job_id n p -> writing job_id m q ->
  ((1 <= n \/ 1 <= m)%nat -> job_id ∈ active_jobs w) ->
  ((3 <= n \/ 3 <= m)%nat -> exists t, record w job_id = Some (initial_fields t)) ->
  writing job_id ((n + turns true sched) `min` 3) (interleave sched p q w).1.1 /\
  writing job_id ((m + turns false sched) `min` 3) (interleave sched p q w).1.2 /\
  ((1 <= n + turns true sched \/ 1 <= m + turns false sched)%nat ->
   job_id ∈ active_jobs (interleave sched p q w).2) /\
  ((3 <= n + turns true sched \/ 3 <= m + turns false sched)%nat ->
   exists t, record (interleave sched p q w).2 job_id = Some (initial_fields t)).
Proof.
  induction sched as [|[| |t] sched IH]; intros w p q n m Hp Hq Hadded Hwritten.
  - cbn. rewrite !Nat.add_0_r.
    replace (n `min` 3)%nat with n by (inversion Hp; lia).
    replace (m `min` 3)%nat with m by (inversion Hq; lia). done.
  - cbn [interleave].
    destruct (writing_step job_id n p w Hp) as (Hp' & Hkeep & Hkeepw & Hadd & Hwrite).
    destruct (step p w) as [p' w']. cbn [fst snd] in *.
    rewrite (proj1 (turns_first sched)), (proj2 (turns_first sched)).
    destruct (IH w' p' q _ m Hp' Hq) as (IHp & IHq & IHa & IHw).
    + intros _. destruct n; [by apply Hadd|]. apply Hkeep, Hadded. lia.
    + intros Hst. destruct (decide (n = 2%nat)) as [->|]; [by apply Hwrite|].
      apply Hkeepw, Hwritten. lia.
    + replace ((n + S (turns true sched)) `min` 3)%nat
        with ((((n + 1) `min` 3) + turns true sched) `min` 3)%nat by lia.
      split; [done|]. split; [done|].
      split; intros Hst; [apply IHa|apply IHw]; lia.
  - cbn [interleave].
    destruct (writing_step job_id m q w Hq) as (Hq' & Hkeep & Hkeepw & Hadd & Hwrite).
    destruct (step q w) as [q' w']. cbn [fst snd] in *.
    rewrite (proj1 (turns_second sched)), (proj2 (turns_second sched)).
    destruct (IH w' p q' n _ Hp Hq') as (IHp & IHq & IHa & IHw).
    + intros _. destruct m; [by apply Hadd|]. apply Hkeep, Hadded. lia.
    + intros Hst. destruct (decide (m = 2%nat)) as [->|]; [by apply Hwrite|].
      apply Hkeepw, Hwritten. lia.
    + replace ((m + S (turns false sched)) `min` 3)%nat
        with ((((m + 1) `min` 3) + turns false sched) `min` 3)%nat by lia.
      split; [done|]. split; [done|].
      split; intros Hst; [apply IHa|apply IHw]; lia.
  - cbn [interleave]. rewrite !turns_clock. by apply IH.
Qed.

(** The first caller has added the id and the second has not yet tested
    (or has been refused): the second is refused on its first turn. *)
Lemma first_ahead job_id sched : forall w p (n : nat) q,
  job_id ∈ active_jobs w -> writing job_id n p ->
  ((3 <= n)%nat -> exists t, record w job_id = Some (initial_fields t)) ->
  q = start_job job_id \/ q = Ret (duplicate job_id) ->
  writing job_id ((n + turns true sched) `min` 3) (interleave sched p q w).1.1 /\
  ((1 <= turns false sched)%nat \/ q = Ret (duplicate job_id) ->
   (interleave sched p q w).1.2 = Ret (duplicate job_id)) /\
  job_id ∈ active_jobs (interleave sched p q w).2 /\
  ((3 <= n + turns true sched)%nat ->
   exists t, record (interleave sched p q w).2 job_id = Some (initial_fields t)).
Proof.
  induction sched as [|[| |t] sched IH]; intros w p n q Hadded Hp Hwritten Hq.
  - cbn. rewrite !Nat.add_0_r.
    replace (n `min` 3)%nat with n by (inversion Hp; lia).
    repeat split; try done. intros [Hturn|Hdup]; [|done]. cbn in Hturn. lia.
  - cbn [interleave].
    destruct (writing_step job_id n p w Hp) as (Hp' & Hkeep & Hkeepw & Hadd & Hwrite).
    destruct (step p w) as [p' w']. cbn [fst snd] in *.
    rewrite (proj1 (turns_first sched)), (proj2 (turns_first sched)).
    destruct (IH w' p' _ q (Hkeep Hadded) Hp') as (IHp & IHq & IHa & IHw); [|done|].
    + intros Hst. destruct (decide (n = 2%nat)) as [->|]; [by apply Hwrite|].
      apply Hkeepw, Hwritten. lia.
    + replace ((n + S (turns true sched)) `min` 3)%nat
        with ((((n + 1) `min` 3) + turns true sched) `min` 3)%nat by lia.
      repeat split; try done. intros Hst. apply IHw. lia.
  - cbn [interleave].
    assert (step q w = (Ret (duplicate job_id), w)) as ->.
    { destruct Hq as [-> | ->]; [|done].
      by rewrite step_start_job, bool_decide_true. }
    rewrite (proj1 (turns_second sched)), (proj2 (turns_second sched)).
    destruct (IH w p n (Ret (duplicate job_id)) Hadded Hp Hwritten)
      as (IHp & IHq & IHa & IHw); [by right|].
    repeat split; try done. intros _. apply IHq. by right.
  - cbn [interleave]. rewrite !turns_clock. by apply IH.
Qed.

(** The first caller has tested and neither has added the id: what
    happens next depends on who takes the next turn. *)
Lemma first_tested job_id sched : forall w p,
  job_id ∉ active_jobs w -> writing job_id 0 p ->
  (forall rest, callers sched = true :: rest ->
     writing job_id (turns true sched `min` 3)
       (interleave sched p (start_job job_id) w).1.1 /\
     ((1 <= turns false sched)%nat ->
      (interleave sched p (start_job job_id) w).1.2 = Ret (duplicate job_id)) /\
     job_id ∈ active_jobs (interleave sched p (start_job job_id) w).2 /\
     ((3 <= turns true sched)%nat ->
      exists t, record (interleave sched p (start_job job_id) w).2 job_id
                = Some (initial_fields t))) /\
  (forall rest, callers sched = false :: rest ->
     writing job_id (turns true sched `min` 3)
       (interleave sched p (start_job job_id) w).1.1 /\
     writing job_id ((turns false sched - 1) `min` 3)
       (interleave sched p (start_job job_id) w).1.2 /\
     ((1 <= turns true sched \/ 2 <= turns false sched)%nat ->
      job_id ∈ active_jobs (interleave sched p (start_job job_id) w).2) /\
     ((3 <= turns true sched \/ 4 <= turns false sched)%nat ->
      exists t, record (interleave sched p (start_job job_id) w).2 job_id
                = Some (initial_fields t))).
Proof.
  induction sched as [|[| |t] sched IH]; intros w p Hout Hp.
  - split; intros rest [=].
  - split; [|intros rest [=]]. intros rest _. cbn [interleave].
    destruct (writing_step job_id 0 p w Hp) as (Hp' & _ & _ & Hadd & _).
    destruct (step p w) as [p' w']. cbn [fst snd] in *.
    rewrite (proj1 (turns_first sched)), (proj2 (turns_first sched)).
    destruct (first_ahead job_id sched w' p' 1 (start_job job_id))
      as (Hfirst & Hsecond & Hadded & Hwritten);
      [by apply Hadd|done|lia|by left|].
    replace (S (turns true sched) `min` 3)%nat
      with ((1 + turns true sched) `min` 3)%nat by lia.
    split; [done|]. split; [intros Hturn; apply Hsecond; by left|].
    split; [done|]. intros Hturn. apply Hwritten. lia.
  - split; [intros rest [=]|]. intros rest _. cbn [interleave].
    rewrite step_start_job, bool_decide_false by done.
    rewrite (proj1 (turns_second sched)), (proj2 (turns_second sched)).
    destruct (both_writing job_id sched w p _ 0 0 Hp (writing_sadd job_id))
      as (Hfirst & Hsecond & Hadded & Hwritten); [lia|lia|].
    replace (S (turns false sched) - 1)%nat with (0 + turns false sched)%nat by lia.
    split; [done|]. split; [done|].
    split; intros Hturn; [apply Hadded|apply Hwritten]; lia.
  - cbn [interleave]. rewrite !turns_clock. by apply IH.
Qed.

(** Two calls of [start_job] on an id that is not active, from their
    beginning, when the first caller takes the first turn. *)
Lemma first_begins job_id sched : forall w,
  job_id ∉ active_jobs w ->
  (forall rest, callers sched = true :: true :: rest ->
     writing job_id ((turns true sched - 1) `min` 3)
       (interleave sched (start_job job_id) (start_job job_id) w).1.1 /\
     ((1 <= turns false sched)%nat ->
      (interleave sched (start_job job_id) (start_job job_id) w).1.2
      = Ret (duplicate job_id))) /\
  (forall rest, callers sched = true :: false :: rest ->
     writing job_id ((turns true sched - 1) `min` 3)
       (interleave sched (start_job job_id) (start_job job_id) w).1.1 /\
     writing job_id ((turns false sched - 1) `min` 3)
       (interleave sched (start_job job_id) (start_job job_id) w).1.2 /\
     ((2 <= turns true sched \/ 2 <= turns false sched)%nat ->
      job_id ∈ active_jobs (interleave sched (start_job job_id) (start_job job_id) w).2) /\
     ((4 <= turns true sched \/ 4 <= turns false sched)%nat ->
      exists t, record (interleave sched (start_job job_id) (start_job job_id) w).2 job_id
                = Some (initial_fields t))).
Proof.
  induction sched as [|[| |t] sched IH]; intros w Hout.
  - split; intros rest [=].
  - cbn [interleave]. rewrite step_start_job, bool_decide_false by done.
    rewrite (proj1 (turns_first sched)), (proj2 (turns_first sched)).
    replace (S (turns true sched) - 1)%nat with (turns true sched) by lia.
    destruct (first_tested job_id sched w _ Hout (writing_sadd job_id))
      as [Hahead Hboth].
    split; intros rest [= Hcallers].
    + destruct (Hahead _ Hcallers) as (Hfirst & Hsecond & _). done.
    + destruct (Hboth _ Hcallers) as (Hfirst & Hsecond & Hadded & Hwritten).
      split; [done|]. split; [done|].
      split; intros Hturn; [apply Hadded|apply Hwritten]; lia.
  - split; intros rest [=].
  - cbn [interleave]. rewrite !turns_clock. by apply IH.
Qed.

(** The same, when the second caller takes the first turn. *)
Lemma second_begins job_id sched w :
  job_id ∉ active_jobs w ->
  (forall rest, callers sched = false :: false :: rest ->
     writing job_id ((turns false sched - 1) `min` 3)
       (interleave sched (start_job job_id) (start_job job_id) w).1.2 /\
     ((1 <= turns true sched)%nat ->
      (interleave sched (start_job job_id) (start_job job_id) w).1.1
      = Ret (duplicate job_id))) /\
  (forall rest, callers sched = false :: true :: rest ->
     writing job_id ((turns true sched - 1) `min` 3)
       (interleave sched (start_job job_id) (start_job job_id) w).1.1 /\
     writing job_id ((turns false sched - 1) `min` 3)
       (interleave sched (start_job job_id) (start_job job_id) w).1.2 /\
     ((2 <= turns true sched \/ 2 <= turns false sched)%nat ->
      job_id ∈ active_jobs (interleave sched (start_job job_id) (start_job job_id) w).2) /\
     ((4 <= turns true sched \/ 4 <= turns false sched)%nat ->
      exists t, record (interleave sched (start_job job_id) (start_job job_id) w).2 job_id
                = Some (initial_fields t))).
Proof.
  intros Hout.
  destruct (first_begins job_id (exchanged <$> sched) w Hout) as [Hahead Hboth].
  rewrite interleave_swap, callers_swap, !turns_swap in Hahead, Hboth.
  cbn [fst snd negb] in Hahead, Hboth.
  split; intros rest Hcallers.
  - apply (Hahead (negb <$> rest)). by rewrite Hcallers.
  - destruct (Hboth (negb <$> rest)) as (Hsecond & Hfirst & Hadded & Hwritten);
      [by rewrite Hcallers|].
    split; [done|]. split; [done|].
    split; intros Hturn; [apply Hadded|apply Hwritten]; lia.
Qed.

(** A [fail_job] between the read and the write of [update_progress]. *)
Lemma update_progress_writes_after_fail w job_id p j old :
  record w job_id = Some j -> status j = Some "Running" -> progress j = Some old ->
  interleave [First; First; Second; Second; Second; First]
    (update_progress job_id p) (fail_job job_id) w =
  (Ret {| r_status := "Progress Updated"; r_job_id := Some job_id |},
   Ret {| r_status := "Failed"; r_job_id := Some job_id |},
   {| hashes :=
        <[job_key job_id :=
            {| status := Some "Failed"; progress := Some p; last_progress := Some old;
               retries := retries j; start_time := start_time j |}]> (hashes w);
      active_jobs := active_jobs w ∖ {[job_id]};
      clock := clock w |}).
Proof.
  unfold record. intros Hj Hst Hp. unfold update_progress, fail_job.
  cbn. rewrite Hj. cbn. rewrite Hj. cbn. rewrite Hst. cbn.
  rewrite bool_decide_false by (intros Hne; by apply Hne). cbn. rewrite Hp. cbn.
  rewrite Hj. cbn. rewrite !lookup_insert_eq. cbn.
  unfold with_hashes, with_active, hmerge; cbn.
  by rewrite !insert_insert_eq.
Qed.

(** C9, amended.  [start_job] and [update_progress] are no atomic
    conditional operations.  [start_job] is a membership test followed,
    as separate commands, by unconditional writes: after its first
    command the store is unchanged and the call has not returned.  For
    two concurrent calls of [start_job] on an id that is not active,
    under every schedule of their commands, the clock moving freely in
    between:
    - when the first two commands are the tests of the two callers, a
      caller that has had its four turns has returned "Accepted", so
      both calls insert; once one of them has, the id is in the active
      set and its record is the initial record for some start time;
    - when the first two commands belong to one caller (its [sadd] comes
      before the test of the other), that caller has returned "Accepted"
      after its four turns and the other "Duplicate Job ID" after its
      first.
    [update_progress] reads the status and then writes without
    condition: in the schedule where it performs [exists] and [hgetall]
    on a Running job, [fail_job] on the same id then performs its three
    commands, and [update_progress] then performs its [hmset],
    [update_progress] returns "Progress Updated" and the record ends
    Failed with the new progress. *)
Theorem start_job_check_then_write (w : world) (job_id : string) :
  ((job_id ∉ active_jobs w) ->
   (step (start_job job_id) w).2 = w /\
   returned (step (start_job job_id) w).1 = None /\
   forall sched rest,
     let r := interleave sched (start_job job_id) (start_job job_id) w in
     (callers sched = true :: false :: rest \/ callers sched = false :: true :: rest ->
      ((4 <= turns true sched)%nat -> r.1.1 = Ret (accepted job_id)) /\
      ((4 <= turns false sched)%nat -> r.1.2 = Ret (accepted job_id)) /\
      ((4 <= turns true sched \/ 4 <= turns false sched)%nat ->
       job_id ∈ active_jobs r.2 /\
       exists t, record r.2 job_id = Some (initial_fields t))) /\
     (callers sched = true :: true :: rest ->
      ((4 <= turns true sched)%nat -> r.1.1 = Ret (accepted job_id)) /\
      ((1 <= turns false sched)%nat -> r.1.2 = Ret (duplicate job_id))) /\
     (callers sched = false :: false :: rest ->
      ((4 <= turns false sched)%nat -> r.1.2 = Ret (accepted job_id)) /\
      ((1 <= turns true sched)%nat -> r.1.1 = Ret (duplicate job_id)))) /\
  (forall p j old,
     record w job_id = Some j -> status j = Some "Running" -> progress j = Some old ->
     interleave [First; First; Second; Second; Second; First]
       (update_progress job_id p) (fail_job job_id) w =
     (Ret {| r_status := "Progress Updated"; r_job_id := Some job_id |},
      Ret {| r_status := "Failed"; r_job_id := Some job_id |},
      {| hashes :=
           <[job_key job_id :=
               {| status := Some "Failed"; progress := Some p;
                  last_progress := Some old; retries := retries j;
                  start_time := start_time j |}]> (hashes w);
         active_jobs := active_jobs w ∖ {[job_id]};
         clock := clock w |})).
Proof.
  split; [|intros p j old; apply update_progress_writes_after_fail].
  intros Hout. rewrite step_start_job, bool_decide_false by done.
  split; [done|]. split; [done|]. intros sched rest r. subst r.
  destruct (first_begins job_id sched w Hout) as [Hahead1 Hboth1].
  destruct (second_begins job_id sched w Hout) as [Hahead2 Hboth2].
  assert (forall n p, (4 <= n)%nat -> writing job_id ((n - 1) `min` 3) p ->
                      p = Ret (accepted job_id)) as Hdone.
  { intros n p Hn Hp. apply writing_3.
    by replace ((n - 1) `min` 3)%nat with 3%nat in Hp by lia. }
  split; [|split].
  - intros Hcallers.
    assert (writing job_id ((turns true sched - 1) `min` 3)
              (interleave sched (start_job job_id) (start_job job_id) w).1.1 /\
            writing job_id ((turns false sched - 1) `min` 3)
              (interleave sched (start_job job_id) (start_job job_id) w).1.2 /\
            ((2 <= turns true sched \/ 2 <= turns false sched)%nat ->
             job_id ∈ active_jobs
               (interleave sched (start_job job_id) (start_job job_id) w).2) /\
            ((4 <= turns true sched \/ 4 <= turns false sched)%nat ->
             exists t, record
               (interleave sched (start_job job_id) (start_job job_id) w).2 job_id
               = Some (initial_fields t)))
      as (Hfirst & Hsecond & Hadded & Hwritten)
      by (destruct Hcallers as [Hc|Hc]; [by eapply Hboth1|by eapply Hboth2]).
    split; [intros Hturn; by eapply Hdone|].
    split; [intros Hturn; by eapply Hdone|].
    intros Hturn. split; [apply Hadded; lia|by apply Hwritten].
  - intros Hcallers. destruct (Hahead1 _ Hcallers) as [Hfirst Hsecond].
    split; [intros Hturn; by eapply Hdone|done].
  - intros Hcallers. destruct (Hahead2 _ Hcallers) as [Hsecond Hfirst].
    split; [intros Hturn; by eapply Hdone|done].
Qed.

Lemma start_job_check_then_write_witness :
  let r := interleave
             [First; Clock 5; Second; First; First; Clock 9; First;
              Second; Second; Second]
             (start_job "a") (start_job "a") (empty_world 0) in
  r.1.1 = Ret (accepted "a") /\ r.1.2 = Ret (accepted "a") /\
  (interleave [First; First; Second] (start_job "a") (start_job "a") (empty_world 0)).1.2
  = Ret (duplicate "a").
Proof.
  intros r. subst r.
  destruct (start_job_check_then_write (empty_world 0) "a") as [Hstart _].
  destruct Hstart as (_ & _ & Hsched); [apply not_elem_of_empty|].
  destruct (Hsched [First; Clock 5; Second; First; First; Clock 9; First;
                    Second; Second; Second]
              [true; true; true; false; false; false]) as [Hboth _].
  destruct Hboth as (Hfirst & Hsecond & _); [by left|].
  destruct (Hsched [First; First; Second] [false]) as (_ & Hahead & _).
  destruct Hahead as [_ Hrefused]; [done|].
  split; [apply Hfirst; vm_compute; lia|].
  split; [apply Hsecond; vm_compute; lia|].
  apply Hrefused. vm_compute. lia.
Defined.

(** * Further properties of the job manager *)

(** ** Stores built by calls on the job manager *)

Lemma wellformed_serve cfg r w : wellformed w -> wellformed (serve cfg r w).
Proof.
  intros Hwf.
  destruct (serve_changes cfg r w) as [r| |job_id Hout|job_id p j old Hj Hst Hp
    |job_id j Hj|job_id j Hj|job_id j m Hj Hm Hle]; try done;
    intros key j'; cbn;
    (destruct (decide (key = job_key job_id)) as [->|Hne];
     [rewrite lookup_insert_eq; intros [= <-]; cbn
     |rewrite lookup_insert_ne by done; apply Hwf]);
    try destruct (Hwf _ _ Hj) as (_ & Hs & Hp' & Hlp & Hn & Ht).
  - unfold known_status. repeat split; eauto. exists 0. done.
  - repeat split; eauto.
  - unfold known_status. repeat split; eauto 6.
  - unfold known_status. repeat split; eauto 6.
  - unfold known_status. destruct Hn as (n & Hn & Hpos).
    assert (n = m) as -> by congruence.
    repeat split; eauto. exists (m + 1). split; [done|lia].
Qed.

Lemma wellformed_reachable cfg w : reachable cfg w -> wellformed w.
Proof.
  intros Hreach. induction Hreach as [t|w r Hreach IH].
  - intros key j Hj. cbn in Hj. by rewrite lookup_empty in Hj.
  - by apply wellformed_serve.
Qed.

(** X1. Every store that calls on the job manager build from an empty
    Redis is well formed: each hash sits under the key of a job and
    carries a status among Running, Retrying, Completed and Failed, both
    progress fields, a retries count that is not negative and a start
    time. *)
Theorem reachable_wellformed (cfg : config) (w : world) :
  reachable cfg w -> wellformed w.
Proof. apply wellformed_reachable. Qed.

Lemma reachable_serve_all cfg rs w :
  reachable cfg w -> reachable cfg (serve_all cfg rs w).
Proof.
  revert w. induction rs as [|r rs IH]; intros w Hreach; [done|].
  cbn. apply IH. by apply reachable_serve.
Qed.

Lemma reachable_wellformed_witness :
  wellformed (serve_all default_config
                [Start "a"; UpdateProgress "a" 5; Retry "a"; Fail "a"] (empty_world 0)).
Proof.
  apply (reachable_wellformed default_config).
  apply reachable_serve_all, reachable_empty.
Defined.

(** X2. On such a store no method of the job manager other than the
    sweep raises: [start_job], [get_job_status], [update_progress],
    [fail_job], [retry_job] and [complete_job] all return their dict, for
    every id and every progress value. *)
Theorem methods_return_on_reachable
    (cfg : config) (w : world) (job_id : string) (p : Z) :
  reachable cfg w ->
  (exists resp, (run (start_job job_id) w).1 = inr resp) /\
  (exists resp, (run (get_job_status job_id) w).1 = inr resp) /\
  (exists resp, (run (update_progress job_id p) w).1 = inr resp) /\
  (exists resp, (run (fail_job job_id) w).1 = inr resp) /\
  (exists resp, (run (retry_job cfg job_id) w).1 = inr resp) /\
  (exists resp, (run (complete_job job_id) w).1 = inr resp).
Proof.
  intros Hwf%wellformed_reachable.
  destruct (record w job_id) as [j|] eqn:Hj.
  - destruct (Hwf _ _ Hj) as (_ & (st & Hst & _) & [old Hp] & _ & (n & Hn & _) & _).
    repeat split.
    + destruct (decide (job_id ∈ active_jobs w)).
      * rewrite run_start_job_active by done. eauto.
      * rewrite run_start_job_fresh by done. eauto.
    + unfold record in Hj. unfold get_job_status. run_with Hj. eauto.
    + destruct (decide (st = "Running")) as [->|Hne].
      * erewrite run_update_progress_running by done. eauto.
      * erewrite run_update_progress_not_running by done. eauto.
    + erewrite run_fail_job_present by done. eauto.
    + destruct (decide (n + 1 <= MAX_RETRIES cfg)).
      * erewrite run_retry_job_retried by done. eauto.
      * erewrite run_retry_job_exceeded by (done || lia). eauto.
    + erewrite run_complete_job_present by done. eauto.
  - repeat split.
    + destruct (decide (job_id ∈ active_jobs w)).
      * rewrite run_start_job_active by done. eauto.
      * rewrite run_start_job_fresh by done. eauto.
    + unfold record in Hj. unfold get_job_status. run_with Hj. eauto.
    + rewrite run_update_progress_absent by done. eauto.
    + rewrite run_fail_job_absent by done. eauto.
    + rewrite run_retry_job_absent by done. eauto.
    + rewrite run_complete_job_absent by done. eauto.
Qed.

Lemma methods_return_on_reachable_witness :
  exists resp,
    (run (retry_job default_config "a")
       (serve_all default_config [Start "a"; Complete "a"] (empty_world 0))).1 = inr resp.
Proof.
  apply (methods_return_on_reachable default_config _ "a" 0).
  apply reachable_serve_all, reachable_empty.
Defined.

(** The active ids all have a record in flight: kept by every request. *)
Lemma active_in_flight_serve cfg r w :
  (forall job_id, job_id ∈ active_jobs w ->
     exists j, record w job_id = Some j /\ in_flight j) ->
  forall job_id, job_id ∈ active_jobs (serve cfg r w) ->
    exists j, record (serve cfg r w) job_id = Some j /\ in_flight j.
Proof.
  intros Hinv.
  destruct (serve_changes cfg r w) as [r| |job_id Hout|job_id p j old Hj Hst Hp
    |job_id j Hj|job_id j Hj|job_id j m Hj Hm Hle]; try done;
    intros other; cbn;
    (destruct (decide (other = job_id)) as [->|Hne];
     [|unfold record; cbn; rewrite lookup_insert_ne by (by apply job_key_ne);
       intros Hin; apply Hinv; revert Hin; members]);
    unfold record; cbn; rewrite lookup_insert_eq; intros Hin.
  - eexists. split; [done|]. by left.
  - eexists. split; [done|]. left. by rewrite <- Hst.
  - revert Hin. members.
  - revert Hin. members.
  - eexists. split; [done|]. by right.
Qed.

(** X3. The half of the lockstep that the code keeps: in every store
    built by calls on the job manager, an id in the active set has a
    record, and its status is Running or Retrying. *)
Theorem active_jobs_are_in_flight (cfg : config) (w : world) (job_id : string) :
  reachable cfg w -> job_id ∈ active_jobs w ->
  exists j, record w job_id = Some j /\ in_flight j.
Proof.
  intros Hreach. revert job_id. induction Hreach as [t|w r Hreach IH].
  - intros job_id Hin. by apply not_elem_of_empty in Hin.
  - by apply active_in_flight_serve.
Qed.

Lemma active_jobs_are_in_flight_witness :
  exists j,
    record (serve_all default_config [Start "a"; Retry "a"] (empty_world 0)) "a" = Some j /\
    in_flight j.
Proof.
  apply (active_jobs_are_in_flight default_config).
  - apply reachable_serve_all, reachable_empty.
  - by vm_compute.
Defined.

(** X4. Records are never deleted and only [start_job] creates them: a
    record present before a request is present after it, and a record
    that appears was created by [start_job] on that id. *)
Theorem records_created_only_by_start_job
    (cfg : config) (r : request) (w : world) (job_id : string) :
  (is_Some (record w job_id) -> is_Some (record (serve cfg r w) job_id)) /\
  (record w job_id = None -> is_Some (record (serve cfg r w) job_id) ->
   r = Start job_id).
Proof.
  unfold record.
  destruct (serve_changes cfg r w) as [r| |other Hout|other p j old Hj Hst Hp
    |other j Hj|other j Hj|other j m Hj Hm Hle]; cbn;
    try (split; [done|intros Hnone [? Hsome]; congruence]);
    unfold record in *;
    (destruct (decide (job_id = other)) as [->|Hne];
     [rewrite lookup_insert_eq; split; [by eauto|]; try done;
      intros Hnone; by rewrite Hnone in Hj
     |rewrite lookup_insert_ne by (by apply job_key_ne);
      split; [done|intros Hnone [? Hsome]; congruence]]).
Qed.

Lemma records_created_only_by_start_job_witness :
  is_Some (record (serve default_config (Fail "a")
                     (serve_all default_config [Start "a"] (empty_world 0))) "a").
Proof.
  apply (proj1 (records_created_only_by_start_job default_config (Fail "a") _ "a")).
  vm_compute. by eexists.
Defined.

(** X5. A request touches only the job it is addressed to: the record
    and the active-set membership of every other id are the same after
    it; the sweep and the clock touch none. *)
Theorem requests_touch_only_their_job
    (cfg : config) (r : request) (w : world) (job_id : string) :
  target r <> Some job_id ->
  record (serve cfg r w) job_id = record w job_id /\
  (job_id ∈ active_jobs (serve cfg r w) <-> job_id ∈ active_jobs w).
Proof.
  intros Hother.
  destruct (serve_changes cfg r w) as [r| |other Hout|other p j old Hj Hst Hp
    |other j Hj|other j Hj|other j m Hj Hm Hle]; try done;
    (assert (job_id <> other) as Hne by (intros ->; by apply Hother));
    unfold record; cbn; rewrite lookup_insert_ne by (by apply job_key_ne);
    (split; [done|]); try done; members.
Qed.

Lemma requests_touch_only_their_job_witness :
  let w := serve_all default_config [Start "a"; Start "b"] (empty_world 0) in
  record (serve default_config (Fail "a") w) "b" = record w "b" /\
  ("b" ∈ active_jobs (serve default_config (Fail "a") w) <-> "b" ∈ active_jobs w).
Proof.
  intros w. by apply (requests_touch_only_their_job default_config (Fail "a") w "b").
Defined.

(** ** get_job_status, fail_job and complete_job *)

(** X6. [get_job_status] answers from the record alone and changes
    nothing: the "Not Found" dict when the id has no hash, the hash
    itself otherwise, whether or not the id is in the active set.  In
    particular a job that [complete_job] or [fail_job] took out of the
    active set is still found, with its new status and its other fields
    as they were. *)
Theorem get_job_status_reads_the_record (w : world) (job_id : string) :
  run (get_job_status job_id) w =
    (inr match record w job_id with
         | Some j => inr j
         | None => inl {| r_status := "Not Found"; r_job_id := None |}
         end, w) /\
  (forall j, record w job_id = Some j ->
     let w' := (run (complete_job job_id) w).2 in
     (job_id ∉ active_jobs w') /\
     run (get_job_status job_id) w' = (inr (inr (with_status "Completed" j)), w')) /\
  (forall j, record w job_id = Some j ->
     let w' := (run (fail_job job_id) w).2 in
     (job_id ∉ active_jobs w') /\
     run (get_job_status job_id) w' = (inr (inr (with_status "Failed" j)), w')).
Proof.
  assert (forall w0, run (get_job_status job_id) w0 =
    (inr match record w0 job_id with
         | Some j => inr j
         | None => inl {| r_status := "Not Found"; r_job_id := None |}
         end, w0)) as Hget.
  { intros w0. unfold record, get_job_status. cbn.
    destruct (hashes w0 !! job_key job_id) as [j|] eqn:Hj; by run_with Hj. }
  split; [apply Hget|]. split; intros j Hj w'; subst w'.
  - erewrite run_complete_job_present by done. cbn [snd].
    split; [cbn; members|]. rewrite Hget. unfold record; cbn. by rewrite lookup_insert_eq.
  - erewrite run_fail_job_present by done. cbn [snd].
    split; [cbn; members|]. rewrite Hget. unfold record; cbn. by rewrite lookup_insert_eq.
Qed.

Lemma get_job_status_reads_the_record_witness :
  let w := serve_all default_config [Tick 3; Start "a"; UpdateProgress "a" 8] (empty_world 0) in
  run (get_job_status "a") (run (complete_job "a") w).2 =
  (inr (inr {| status := Some "Completed"; progress := Some 8; last_progress := Some 0;
               retries := Some 0; start_time := Some 3 |}),
   (run (complete_job "a") w).2).
Proof.
  intros w.
  apply (proj1 (proj2 (get_job_status_reads_the_record w "a"))
           {| status := Some "Running"; progress := Some 8; last_progress := Some 0;
              retries := Some 0; start_time := Some 3 |}).
  by vm_compute.
Defined.

(** X7. The contract of [fail_job] and [complete_job]: with no record
    they return "Not Found" and the store is the same; with a record,
    whatever its status, they return "Failed" (resp. "Completed"), set
    the status, take the id out of the active set and leave the other
    four fields, the other records and the clock as they were. *)
Theorem fail_and_complete_contract (w : world) (job_id : string) :
  (record w job_id = None ->
   run (fail_job job_id) w = (inr {| r_status := "Not Found"; r_job_id := None |}, w) /\
   run (complete_job job_id) w = (inr {| r_status := "Not Found"; r_job_id := None |}, w)) /\
  (forall j, record w job_id = Some j ->
   run (fail_job job_id) w =
     (inr {| r_status := "Failed"; r_job_id := Some job_id |},
      {| hashes := <[job_key job_id := with_status "Failed" j]> (hashes w);
         active_jobs := active_jobs w ∖ {[job_id]};
         clock := clock w |}) /\
   run (complete_job job_id) w =
     (inr {| r_status := "Completed"; r_job_id := Some job_id |},
      {| hashes := <[job_key job_id := with_status "Completed" j]> (hashes w);
         active_jobs := active_jobs w ∖ {[job_id]};
         clock := clock w |})).
Proof.
  split.
  - intros Hnone. by rewrite run_fail_job_absent, run_complete_job_absent.
  - intros j Hj. by erewrite run_fail_job_present, run_complete_job_present.
Qed.

Lemma fail_and_complete_contract_witness :
  run (fail_job "ghost") (empty_world 0) =
    (inr {| r_status := "Not Found"; r_job_id := None |}, empty_world 0) /\
  (let w := serve_all default_config [Start "a"; Complete "a"] (empty_world 0) in
   (run (fail_job "a") w).1 = inr {| r_status := "Failed"; r_job_id := Some "a" |}).
Proof.
  split.
  - by apply (proj1 (fail_and_complete_contract (empty_world 0) "ghost")).
  - cbv zeta.
    erewrite (proj1 (proj2 (fail_and_complete_contract _ "a")
                       {| status := Some "Completed"; progress := Some 0;
                          last_progress := Some 0; retries := Some 0;
                          start_time := Some 0 |} _)).
    reflexivity.
    Unshelve. by vm_compute.
Defined.

Lemma put_put job_id j1 j2 w :
  with_hashes (<[job_key job_id := j2]> (hashes (put job_id j1 w))) w = put job_id j2 w.
Proof. unfold put, with_hashes; cbn. by rewrite insert_insert_eq. Qed.

(** X8. [fail_job] and [complete_job] have no guard on the status they
    overwrite: the later of two such calls on an id decides, and a
    repeated call changes nothing more.  For every store, the store
    after one of them followed by another is the store after the second
    alone. *)
Theorem fail_complete_last_call_wins (cfg : config) (w : world) (job_id : string) :
  serve_all cfg [Fail job_id; Fail job_id] w = serve cfg (Fail job_id) w /\
  serve_all cfg [Complete job_id; Complete job_id] w = serve cfg (Complete job_id) w /\
  serve_all cfg [Fail job_id; Complete job_id] w = serve cfg (Complete job_id) w /\
  serve_all cfg [Complete job_id; Fail job_id] w = serve cfg (Fail job_id) w.
Proof.
  cbn [serve_all foldl serve].
  destruct (record w job_id) as [j|] eqn:Hj.
  - erewrite (run_fail_job_present w), (run_complete_job_present w) by done. cbn [snd].
    repeat split;
      (erewrite ?run_fail_job_present, ?run_complete_job_present
         by (unfold record; cbn; apply lookup_insert_eq));
      cbn; unfold with_active, with_hashes, with_status; cbn;
      rewrite insert_insert_eq; f_equal; apply set_eq; intros x; members.
  - rewrite (run_fail_job_absent w), (run_complete_job_absent w) by done. cbn [snd].
    by rewrite (run_fail_job_absent w), (run_complete_job_absent w).
Qed.

(** ** update_progress and retry_job together *)

(** X9. Two progress reports in a row on a Running job: progress is the
    second value and last_progress the first, so last_progress is the
    value of the previous report and no older baseline. *)
Theorem update_progress_twice (w : world) (job_id : string) (j : fields) (old p1 p2 : Z) :
  record w job_id = Some j -> status j = Some "Running" -> progress j = Some old ->
  record (run (update_progress job_id p2) (run (update_progress job_id p1) w).2).2 job_id =
  Some {| status := Some "Running"; progress := Some p2; last_progress := Some p1;
          retries := retries j; start_time := start_time j |}.
Proof.
  intros Hj Hst Hp.
  erewrite (run_update_progress_running w) by done. cbn [snd].
  erewrite run_update_progress_running;
    [|apply record_put_eq|cbn; exact Hst|reflexivity].
  cbn. unfold record; cbn. by rewrite lookup_insert_eq, Hst.
Qed.

Lemma update_progress_twice_witness :
  record (run (update_progress "a" 7)
            (run (update_progress "a" 4)
               (serve_all default_config [Start "a"] (empty_world 0))).2).2 "a" =
  Some {| status := Some "Running"; progress := Some 7; last_progress := Some 4;
          retries := Some 0; start_time := Some 0 |}.
Proof.
  apply (update_progress_twice _ "a"
           {| status := Some "Running"; progress := Some 0; last_progress := Some 0;
              retries := Some 0; start_time := Some 0 |} 0 4 7);
    [by vm_compute | reflexivity | reflexivity].
Defined.

(** X10. A retried job accepts no more progress: after a [retry_job]
    that returned "Retried" the job is Retrying, so [update_progress]
    returns "Not Running" and changes nothing; if the id was in the
    active set it still is, so [start_job] returns "Duplicate Job ID" and
    changes nothing either; and a further sweep leaves it as it is. *)
Theorem retried_job_refuses_progress
    (cfg : config) (w : world) (job_id : string) (j : fields) (n p : Z) :
  record w job_id = Some j -> retries j = Some n -> n + 1 <= MAX_RETRIES cfg ->
  let w' := (run (retry_job cfg job_id) w).2 in
  run (update_progress job_id p) w' =
    (inr {| r_status := "Not Running"; r_job_id := Some job_id |}, w') /\
  (job_id ∈ active_jobs w ->
   run (start_job job_id) w' =
    (inr {| r_status := "Duplicate Job ID"; r_job_id := Some job_id |}, w')) /\
  (run (check_stuck_jobs cfg) w').2 = w'.
Proof.
  intros Hj Hn Hle w'. subst w'.
  erewrite run_retry_job_retried by done. cbn [snd].
  split; [|split].
  - eapply run_update_progress_not_running; [apply record_put_eq|reflexivity|done].
  - intros Hin. by apply run_start_job_active.
  - apply check_stuck_jobs_world.
Qed.

Lemma retried_job_refuses_progress_witness :
  let w := (run (retry_job default_config "a")
              (serve_all default_config [Start "a"] (empty_world 0))).2 in
  run (update_progress "a" 5) w =
  (inr {| r_status := "Not Running"; r_job_id := Some "a" |}, w).
Proof.
  apply (retried_job_refuses_progress default_config _ "a"
           {| status := Some "Running"; progress := Some 0; last_progress := Some 0;
              retries := Some 0; start_time := Some 0 |} 0 5);
    [by vm_compute | reflexivity | by vm_compute].
Defined.

(** ** The sweep on any store *)

Lemma wellformed_complete w key j :
  wellformed w -> hashes w !! key = Some j -> complete j.
Proof.
  intros Hwf Hj.
  destruct (Hwf _ _ Hj) as (_ & (st & Hst & _) & Hp & Hlp & (n & Hn & _) & Ht).
  unfold complete. rewrite Hst, Hn. eauto 6.
Qed.

Lemma for_each_check_one_quiet cfg w (keys : list string) :
  (forall key, key ∈ keys ->
     exists j st, hashes w !! key = Some j /\ status j = Some st /\ st <> "Running") ->
  run (for_each keys (check_one cfg)) w = (inr tt, w).
Proof.
  induction keys as [|key keys IH]; intros Hall; [done|].
  cbn [for_each]. rewrite run_bind.
  destruct (Hall key) as (j & st & Hj & Hst & Hne); [by left|].
  erewrite check_one_not_running by done. apply IH.
  intros k Hk. apply Hall. by right.
Qed.

(** X11. What [check_stuck_jobs] and its route do on a well-formed
    store, whatever the clock and the thresholds.  The sweep never
    changes the store.  When some job is Running it raises [NameError]
    for THRESHOLD_TIME, and so does [/check-stuck-jobs], which catches
    nothing.  When no job is Running the sweep returns and the route
    answers 200. *)
Theorem check_stuck_jobs_outcome (cfg : config) (w : world) :
  wellformed w ->
  (run (check_stuck_jobs cfg) w).2 = w /\
  ((exists job_id j, record w job_id = Some j /\ status j = Some "Running") ->
   (run (check_stuck_jobs cfg) w).1 = inl (NameError "THRESHOLD_TIME") /\
   run (route_check_stuck_jobs cfg) w = (inl (NameError "THRESHOLD_TIME"), w)) /\
  (map_Forall (fun _ j => status j <> Some "Running") (hashes w) ->
   (run (check_stuck_jobs cfg) w).1 = inr tt /\
   run (route_check_stuck_jobs cfg) w =
   (inr ({| r_status := "Checked for stuck jobs"; r_job_id := None |}, 200), w)).
Proof.
  intros Hwf. split; [apply check_stuck_jobs_world|]. split.
  - intros (job_id & j & Hj & Hst).
    assert (run (check_stuck_jobs cfg) w = (inl (NameError "THRESHOLD_TIME"), w)) as Hrun.
    { eapply check_stuck_jobs_raises; [|done..].
      intros key j0 Hj0. by eapply wellformed_complete. }
    unfold route_check_stuck_jobs. by rewrite run_bind, Hrun.
  - intros Hquiet.
    assert (run (check_stuck_jobs cfg) w = (inr tt, w)) as Hrun.
    { unfold check_stuck_jobs.
      change (run _ w) with (run (for_each (exec (KEYS "job:") w).1 (check_one cfg)) w).
      apply for_each_check_one_quiet.
      intros key [_ [j Hj]]%keys_job_spec.
      destruct (Hwf _ _ Hj) as (_ & (st & Hst & _) & _).
      exists j, st. split; [done|]. split; [done|].
      intros ->. by apply (Hquiet _ _ Hj). }
    unfold route_check_stuck_jobs. by rewrite run_bind, Hrun.
Qed.

Lemma check_stuck_jobs_outcome_witness :
  let w := serve_all default_config [Start "a"; Complete "a"; Start "b"; Fail "b"]
             (empty_world 0) in
  run (route_check_stuck_jobs default_config) w =
  (inr ({| r_status := "Checked for stuck jobs"; r_job_id := None |}, 200), w).
Proof.
  intros w. apply (check_stuck_jobs_outcome default_config).
  - apply (wellformed_reachable default_config), reachable_serve_all, reachable_empty.
  - apply map_Forall_to_list. vm_compute. repeat constructor; discriminate.
Defined.

(** ** The validator, exactly, and the id read back from a key *)

Lemma at_dollar_chomp s :
  Re.at_dollar s = match chomp s with "" => true | _ => false end.
Proof.
  destruct s as [|c [|d s]]; cbn; try done.
  by destruct (Ascii.eqb c Re.newline).
Qed.

Lemma plus_dollar_chomp cls s :
  cls Re.newline = false ->
  Re.plus cls (Re.matches [Re.Dollar] false) s =
  match chomp s with "" => false | body => Re.all_of cls body end.
Proof.
  intros Hnl. induction s as [|c s IH]; [done|].
  cbn [Re.plus]. rewrite IH. clear IH.
  change (Re.matches [Re.Dollar] false s) with (Re.at_dollar s && true).
  rewrite andb_true_r, at_dollar_chomp.
  destruct s as [|d s].
  - cbn. destruct (Ascii.eqb c Re.newline) eqn:Hc.
    + apply Ascii.eqb_eq in Hc as ->. by rewrite Hnl.
    + cbn. by destruct (cls c).
  - change (chomp (String c (String d s))) with (String c (chomp (String d s))).
    cbn [Re.all_of]. destruct (chomp (String d s)); cbn [Re.all_of]; [done|].
    by rewrite ?orb_false_r.
Qed.

(** X12. The validator, exactly: [is_valid_job_id] takes away one final
    newline, if there is one, and accepts when what is left is not empty
    and all its characters are letters, digits or hyphens. *)
Theorem is_valid_job_id_exact (job_id : string) :
  is_valid_job_id job_id =
  match chomp job_id with
  | "" => false
  | body => Re.all_of Re.job_id_class body
  end.
Proof. by apply plus_dollar_chomp. Qed.

Lemma has_char_chomp c s :
  c <> Re.newline -> has_char c (chomp s) = has_char c s.
Proof.
  intros Hc. induction s as [|d s IH]; [done|].
  destruct s as [|e s].
  - cbn. destruct (Ascii.eqb d Re.newline) eqn:Hd; [|done].
    apply Ascii.eqb_eq in Hd as ->.
    cbn. rewrite orb_false_r. symmetry. apply Ascii.eqb_neq. congruence.
  - change (chomp (String d (String e s))) with (String d (chomp (String e s))).
    cbn [has_char]. by rewrite IH.
Qed.

Lemma all_of_has_char cls c s :
  cls c = false -> Re.all_of cls s = true -> has_char c s = false.
Proof.
  intros Hc. induction s as [|d s IH]; [done|].
  cbn. intros [Hd Hs]%andb_true_iff. rewrite (IH Hs), orb_false_r.
  apply Ascii.eqb_neq. congruence.
Qed.

Lemma valid_job_id_has_no_colon job_id :
  is_valid_job_id job_id = true -> has_char ":" job_id = false.
Proof.
  unfold is_valid_job_id, Re.re_match, Re.job_id_pattern. cbn [Re.matches andb].
  rewrite plus_dollar_chomp by done. intros Hvalid.
  rewrite <- (has_char_chomp ":") by done.
  destruct (chomp job_id) as [|c body] eqn:Hch; [done|].
  by apply (all_of_has_char Re.job_id_class).
Qed.

Lemma split_no_sep sep s : has_char sep s = false -> split sep s = [s].
Proof.
  induction s as [|c s IH]; [done|].
  cbn. intros [Hc Hs]%orb_false_iff. by rewrite Hc, IH.
Qed.

Lemma split_head_shorter sep s :
  has_char sep s = true ->
  exists seg segs, split sep s = seg :: segs /\
    (String.length seg < String.length s)%nat.
Proof.
  induction s as [|c s IH]; [done|].
  cbn. destruct (Ascii.eqb c sep) eqn:Hc; cbn.
  - intros _. eexists _, _. split; [done|]. cbn. lia.
  - intros (seg & segs & -> & Hlen)%IH. eexists _, _. split; [done|]. cbn. lia.
Qed.

Lemma split_job_key job_id : split ":" (job_key job_id) = "job" :: split ":" job_id.
Proof. reflexivity. Qed.

(** X13. The id that [check_stuck_jobs] reads back from a key with
    [job_key.split(":")[1]]: it is the id the key was made from whenever
    that id has no colon, which is the case of every id the validator
    accepts; for an id with a colon it is a strictly shorter string, so
    another id. *)
Theorem job_id_read_back_from_key (job_id : string) :
  (has_char ":" job_id = false -> index (split ":" (job_key job_id)) 1 = Ret job_id) /\
  (is_valid_job_id job_id = true -> index (split ":" (job_key job_id)) 1 = Ret job_id) /\
  (has_char ":" job_id = true ->
   exists other, index (split ":" (job_key job_id)) 1 = Ret other /\ other <> job_id).
Proof.
  rewrite split_job_key.
  assert (has_char ":" job_id = false -> index ("job" :: split ":" job_id) 1 = Ret job_id)
    as Hback by (intros Hno; by rewrite split_no_sep).
  split; [done|]. split.
  - intros Hvalid. by apply Hback, valid_job_id_has_no_colon.
  - intros (seg & segs & -> & Hlen)%split_head_shorter.
    exists seg. split; [done|]. intros ->. lia.
Qed.

Lemma job_id_read_back_from_key_witness :
  index (split ":" (job_key "nightly-42")) 1 = Ret "nightly-42" /\
  exists other, index (split ":" (job_key "a:b")) 1 = Ret other /\ other <> "a:b".
Proof.
  split.
  - by apply (proj1 (proj2 (job_id_read_back_from_key "nightly-42"))).
  - by apply (proj2 (proj2 (job_id_read_back_from_key "a:b"))).
Defined.

(** * The routes of app.py *)

(** X14. The codes of [/start-job]: 400 and "Invalid Job ID" for an id
    the validator rejects, 400 and "Duplicate Job ID" for a valid id that
    is active, the store being the same in both cases; 200 and
    "Accepted" for a valid id that is not active, with the store that
    [start_job] leaves. *)
Theorem route_start_job_codes (w : world) (job_id : string) :
  (is_valid_job_id job_id = false ->
   run (route_start_job job_id) w =
   (inr ({| r_status := "Invalid Job ID"; r_job_id := Some job_id |}, 400), w)) /\
  (is_valid_job_id job_id = true -> job_id ∈ active_jobs w ->
   run (route_start_job job_id) w =
   (inr ({| r_status := "Duplicate Job ID"; r_job_id := Some job_id |}, 400), w)) /\
  (is_valid_job_id job_id = true -> job_id ∉ active_jobs w ->
   run (route_start_job job_id) w =
   (inr ({| r_status := "Accepted"; r_job_id := Some job_id |}, 200),
    (run (start_job job_id) w).2)).
Proof.
  unfold route_start_job. split; [|split].
  - by intros ->.
  - intros -> Hin. cbn [negb]. by rewrite run_bind, run_start_job_active.
  - intros -> Hout. cbn [negb]. by rewrite run_bind, run_start_job_fresh.
Qed.

Lemma route_start_job_codes_witness :
  run (route_start_job "a b") (empty_world 0) =
    (inr ({| r_status := "Invalid Job ID"; r_job_id := Some "a b" |}, 400), empty_world 0) /\
  (let w := serve_all default_config [Start "a"] (empty_world 0) in
   run (route_start_job "a") w =
     (inr ({| r_status := "Duplicate Job ID"; r_job_id := Some "a" |}, 400), w)) /\
  (run (route_start_job "a") (empty_world 0)).1 =
    inr ({| r_status := "Accepted"; r_job_id := Some "a" |}, 200).
Proof.
  split; [|split].
  - by apply (proj1 (route_start_job_codes (empty_world 0) "a b")).
  - cbv zeta. apply (proj1 (proj2 (route_start_job_codes _ "a"))); [done|by vm_compute].
  - rewrite (proj2 (proj2 (route_start_job_codes (empty_world 0) "a")));
      [done|done|apply not_elem_of_empty].
Defined.

(** X15. [/update-progress] answers 400 "Invalid Progress" to a negative
    progress and leaves the store alone, whatever the job; for a progress
    that is not negative it answers what [update_progress] returns, with
    code 200 in every case ("Not Found" and "Not Running" included), and
    leaves the store that [update_progress] leaves. *)
Theorem route_update_progress_codes (w : world) (job_id : string) (p : Z) :
  (p < 0 ->
   run (route_update_progress job_id p) w =
   (inr ({| r_status := "Invalid Progress"; r_job_id := Some job_id |}, 400), w)) /\
  (0 <= p -> forall resp w',
   run (update_progress job_id p) w = (inr resp, w') ->
   run (route_update_progress job_id p) w = (inr (resp, 200), w')).
Proof.
  unfold route_update_progress. split.
  - intros Hneg. by rewrite bool_decide_true.
  - intros Hpos resp w' Hrun. rewrite bool_decide_false by lia.
    by rewrite run_bind, Hrun.
Qed.

Lemma route_update_progress_codes_witness :
  (let w := serve_all default_config [Start "a"] (empty_world 0) in
   run (route_update_progress "a" (-1)) w =
   (inr ({| r_status := "Invalid Progress"; r_job_id := Some "a" |}, 400), w)) /\
  run (route_update_progress "ghost" 5) (empty_world 0) =
   (inr ({| r_status := "Not Found"; r_job_id := None |}, 200), empty_world 0).
Proof.
  split.
  - cbv zeta. by apply (proj1 (route_update_progress_codes _ "a" (-1))).
  - by apply (proj2 (route_update_progress_codes _ "ghost" 5)).
Defined.

Lemma route_answers_200 (m : prog response) w resp w' :
  run m w = (inr resp, w') ->
  run (resp ← m; mret (resp, 200)) w = (inr (resp, 200), w').
Proof. intros Hrun. by rewrite run_bind, Hrun. Qed.

(** X16. On a well-formed store [/job-status] answers 404 with the
    "Not Found" dict exactly when the id has no record, and 200 with the
    hash otherwise; it never changes the store. *)
Theorem route_job_status_codes (w : world) (job_id : string) :
  wellformed w ->
  (record w job_id = None ->
   run (route_job_status job_id) w =
   (inr (inl {| r_status := "Not Found"; r_job_id := None |}, 404), w)) /\
  (forall j, record w job_id = Some j ->
   run (route_job_status job_id) w = (inr (inr j, 200), w)).
Proof.
  intros Hwf. unfold record, route_job_status, get_job_status. split.
  - intros Hnone. by run_with Hnone.
  - intros j Hj. destruct (Hwf _ _ Hj) as (_ & (st & Hst & Hknown) & _).
    run_with Hj. rewrite Hst. cbn.
    rewrite bool_decide_true; [done|].
    by destruct Hknown as [->|[->|[->| ->]]].
Qed.

Lemma route_job_status_codes_witness :
  run (route_job_status "ghost") (empty_world 0) =
    (inr (inl {| r_status := "Not Found"; r_job_id := None |}, 404), empty_world 0) /\
  (let w := serve_all default_config [Start "a"; Fail "a"] (empty_world 0) in
   run (route_job_status "a") w =
   (inr (inr {| status := Some "Failed"; progress := Some 0; last_progress := Some 0;
                retries := Some 0; start_time := Some 0 |}, 200), w)).
Proof.
  split.
  - apply (route_job_status_codes (empty_world 0) "ghost"); [|done].
    apply (wellformed_reachable default_config), reachable_empty.
  - cbv zeta. apply (route_job_status_codes _ "a").
    + apply (wellformed_reachable default_config), reachable_serve_all, reachable_empty.
    + by vm_compute.
Defined.

(** X17. [/fail-job], [/retry-job] and [/complete-job] code their
    outcome in the body only: on a store built by calls on the job
    manager each answers with code 200 the dict its method returns
    ("Not Found" and "Max Retries Exceeded" included) and leaves the
    store its method leaves; none raises. *)
Theorem body_coded_routes_answer_200 (cfg : config) (w : world) (job_id : string) :
  reachable cfg w ->
  (exists resp, run (fail_job job_id) w = (inr resp, (run (fail_job job_id) w).2) /\
     run (route_fail_job job_id) w = (inr (resp, 200), (run (fail_job job_id) w).2)) /\
  (exists resp,
     run (retry_job cfg job_id) w = (inr resp, (run (retry_job cfg job_id) w).2) /\
     run (route_retry_job cfg job_id) w =
       (inr (resp, 200), (run (retry_job cfg job_id) w).2)) /\
  (exists resp,
     run (complete_job job_id) w = (inr resp, (run (complete_job job_id) w).2) /\
     run (route_complete_job job_id) w =
       (inr (resp, 200), (run (complete_job job_id) w).2)).
Proof.
  intros Hwf%wellformed_reachable.
  assert (forall m : prog response, (exists resp, (run m w).1 = inr resp) ->
    exists resp, run m w = (inr resp, (run m w).2) /\
      run (resp ← m; mret (resp, 200)) w = (inr (resp, 200), (run m w).2)) as Hroute.
  { intros m [resp Hresp]. exists resp.
    assert (run m w = (inr resp, (run m w).2)) as Hrun
      by (rewrite <- Hresp; apply surjective_pairing).
    split; [done|]. by apply route_answers_200. }
  split; [|split]; apply Hroute.
  - destruct (record w job_id) as [j|] eqn:Hj.
    + erewrite run_fail_job_present by done. eauto.
    + rewrite run_fail_job_absent by done. eauto.
  - destruct (record w job_id) as [j|] eqn:Hj.
    + destruct (Hwf _ _ Hj) as (_ & _ & _ & _ & (n & Hn & _) & _).
      destruct (decide (n + 1 <= MAX_RETRIES cfg)).
      * erewrite run_retry_job_retried by done. eauto.
      * erewrite run_retry_job_exceeded by (done || lia). eauto.
    + rewrite run_retry_job_absent by done. eauto.
  - destruct (record w job_id) as [j|] eqn:Hj.
    + erewrite run_complete_job_present by done. eauto.
    + rewrite run_complete_job_absent by done. eauto.
Qed.

Lemma body_coded_routes_answer_200_witness :
  exists resp,
    (run (route_retry_job default_config "ghost") (empty_world 0)).1 = inr (resp, 200).
Proof.
  destruct (body_coded_routes_answer_200 default_config (empty_world 0) "ghost")
    as (_ & (resp & _ & Hroute) & _); [apply reachable_empty|].
  exists resp. by rewrite Hroute.
Defined.

(** * The Kubernetes event tracker *)

Section Selector.

Import K8s.

Lemma split_nonempty sep s : split sep s <> [].
Proof.
  destruct s as [|c s]; [done|]. cbn.
  destruct (Ascii.eqb c sep); [done|]. by destruct (split sep s).
Qed.

(** A piece [key=value] of a selector, satisfied by the labels. *)
Lemma selector_loop_true labels pairs :
  selector_loop labels pairs = Some true <->
  Forall (fun piece => exists key value,
            piece = [key; value] /\ labels !! key = Some value) pairs.
Proof.
  induction pairs as [|piece pairs IH]; cbn.
  - split; [constructor|done].
  - rewrite Forall_cons, <- IH. clear IH.
    destruct piece as [|key [|value [|extra piece]]]; cbn;
      try (split; [done|by intros [(? & ? & [=] & _) _]]).
    case_bool_decide as Hne.
    + split; [done|]. intros [(? & ? & [= <- <-] & Hl) _]. by destruct Hne.
    + split; [|by intros [_ ?]]. intros Hrest. split; [|done].
      exists key, value. split; [done|].
      destruct (labels !! key) as [v|] eqn:Hl; [|by destruct Hne].
      destruct (decide (v = value)) as [->|]; [done|]. destruct Hne. congruence.
Qed.

Lemma selector_match_true labels selector :
  does_event_match_label_selector labels selector = true <->
  Forall (fun piece => exists key value,
            split "=" piece = [key; value] /\ labels !! key = Some value)
         (split "," selector).
Proof.
  unfold does_event_match_label_selector.
  rewrite <- (List.Forall_map (split "=")
    (fun piece => exists key value, piece = [key; value] /\ labels !! key = Some value)).
  rewrite <- selector_loop_true.
  destruct (selector_loop labels (map (split "=") (split "," selector))) as [[|]|];
    cbn; split; congruence.
Qed.

(** X18. The selector test, exactly: the labels match a selector when
    every piece of it between commas has the form [key=value], with one
    equals sign, and the labels map that key to that value.  Any other
    piece (an empty one, one with no or two equals signs) or a missing or
    different label gives [False]. *)
Theorem label_selector_match_exact (labels : gmap string string) (selector : string) :
  does_event_match_label_selector labels selector = true <->
  Forall (fun piece => exists key value,
            split "=" piece = [key; value] /\ labels !! key = Some value)
         (split "," selector).
Proof. apply selector_match_true. Qed.

(** X19. Labels the selector does not name do not matter: when a set of
    labels matches a selector, every larger set of labels matches it. *)
Theorem label_selector_more_labels
    (labels labels' : gmap string string) (selector : string) :
  labels ⊆ labels' ->
  does_event_match_label_selector labels selector = true ->
  does_event_match_label_selector labels' selector = true.
Proof.
  intros Hsub. rewrite !selector_match_true. intros Hall.
  eapply Forall_impl; [exact Hall|].
  intros piece (key & value & Hpiece & Hl). exists key, value.
  split; [done|]. by eapply lookup_weaken.
Qed.

Lemma label_selector_more_labels_witness :
  does_event_match_label_selector
    (<["tier" := "batch"]> {["app" := "main-pod"]}) "app=main-pod" = true.
Proof.
  apply (label_selector_more_labels {["app" := "main-pod"]}).
  - apply insert_subseteq. by vm_compute.
  - by vm_compute.
Defined.

(** X20. Selectors and labels that match nothing.  A selector with a
    piece that has not exactly one equals sign (the empty selector and a
    selector ending in a comma are of this kind) matches no labels at
    all; and an empty set of labels matches no selector at all. *)
Theorem label_selector_matches_nothing (selector : string) :
  (forall piece, piece ∈ split "," selector -> length (split "=" piece) <> 2%nat ->
   forall labels, does_event_match_label_selector labels selector = false) /\
  does_event_match_label_selector ∅ selector = false.
Proof.
  split.
  - intros piece Hin Hlen labels. apply not_true_is_false.
    rewrite selector_match_true, Forall_forall. intros Hall.
    destruct (Hall piece Hin) as (key & value & Hsplit & _).
    by rewrite Hsplit in Hlen.
  - apply not_true_is_false. rewrite selector_match_true. intros Hall.
    destruct (split "," selector) as [|piece pieces] eqn:Hs;
      [by apply split_nonempty in Hs|].
    apply Forall_cons in Hall as [(key & value & _ & Hl) _].
    by rewrite lookup_empty in Hl.
Qed.

Lemma label_selector_matches_nothing_witness :
  does_event_match_label_selector {["app" := "main-pod"]} "" = false /\
  does_event_match_label_selector {["app" := "main-pod"]} "app=main-pod," = false.
Proof.
  split.
  - apply (proj1 (label_selector_matches_nothing "") ""); [by left|by vm_compute].
  - apply (proj1 (label_selector_matches_nothing "app=main-pod,") "");
      [by vm_compute; right; left|by vm_compute].
Defined.

End Selector.

Section TrackEvents.

Import K8s.

Variable t : tracker.
Variable api : cluster.

Lemma selector_empty_labels selector :
  does_event_match_label_selector ∅ selector = false.
Proof.
  apply not_true_is_false. rewrite selector_match_true. intros Hall.
  destruct (split "," selector) as [|piece pieces] eqn:Hs;
    [by apply split_nonempty in Hs|].
  apply Forall_cons in Hall as [(key & value & _ & Hl) _].
  by rewrite lookup_empty in Hl.
Qed.

Lemma track_loop_readable events :
  Forall (fun e => read_namespaced_pod api (involved_object_name e) (namespace t)
                   <> OtherException) events ->
  track_loop t api events =
  Some (tracked_of <$> filter (fun e => Is_true (pod_matches t api e)) events).
Proof.
  induction 1 as [|e events Hread _ IH]; [done|].
  cbn [track_loop]. unfold get_labels_from_event. rewrite filter_cons.
  destruct (read_namespaced_pod api (involved_object_name e) (namespace t))
    as [[labels|]| |] eqn:Hr; try done; cbn.
  - assert (pod_matches t api e = does_event_match_label_selector labels (label_selector t))
      as Hk by (unfold pod_matches; by rewrite Hr).
    destruct (does_event_match_label_selector labels (label_selector t));
      cbn; rewrite IH.
    + rewrite decide_True; [reflexivity|by apply Is_true_true].
    + rewrite decide_False; [reflexivity|by apply Is_true_false].
  - assert (pod_matches t api e = false) as Hk by (unfold pod_matches; by rewrite Hr).
    rewrite selector_empty_labels. cbn. rewrite IH.
    rewrite decide_False; [reflexivity|by apply Is_true_false].
  - assert (pod_matches t api e = false) as Hk by (unfold pod_matches; by rewrite Hr).
    rewrite selector_empty_labels. cbn. rewrite IH.
    rewrite decide_False; [reflexivity|by apply Is_true_false].
Qed.

Lemma track_loop_raises events e :
  e ∈ events ->
  read_namespaced_pod api (involved_object_name e) (namespace t) = OtherException ->
  track_loop t api events = None.
Proof.
  intros Hin Hread. induction events as [|e0 events IH]; [by apply elem_of_nil in Hin|].
  cbn [track_loop]. unfold get_labels_from_event.
  apply elem_of_cons in Hin as [<-|Hin]; [by rewrite Hread|].
  destruct (read_namespaced_pod api (involved_object_name e0) (namespace t));
    cbn; try done;
    destruct (does_event_match_label_selector _ _); cbn; by rewrite IH.
Qed.

(** X21. [track_events] when the listing answers and every pod read
    answers or fails with an [ApiException]: the result is, in the order
    of the listing, the dict of each event whose pod was found with
    labels that match the selector; the events whose pod could not be
    read, or has no labels, are left out. *)
Theorem track_events_keeps_matching_pods (events : list event) :
  list_namespaced_event api (namespace t) = Some events ->
  Forall (fun e => read_namespaced_pod api (involved_object_name e) (namespace t)
                   <> OtherException) events ->
  track_events t api =
  tracked_of <$> filter (fun e => Is_true (pod_matches t api e)) events.
Proof.
  intros Hlist Hread. unfold track_events. rewrite Hlist. cbn.
  by rewrite track_loop_readable.
Qed.

(** X22. [track_events] gives up as a whole: when the listing raises, or
    when the pod read of any one listed event raises something other
    than an [ApiException], the result is the empty list, whatever the
    other events are. *)
Theorem track_events_all_or_nothing :
  (list_namespaced_event api (namespace t) = None -> track_events t api = []) /\
  (forall events e,
     list_namespaced_event api (namespace t) = Some events ->
     e ∈ events ->
     read_namespaced_pod api (involved_object_name e) (namespace t) = OtherException ->
     track_events t api = []).
Proof.
  unfold track_events. split.
  - by intros ->.
  - intros events e -> Hin Hread. cbn. by erewrite track_loop_raises.
Qed.

End TrackEvents.

Lemma track_events_keeps_matching_pods_witness :
  let t := {| K8s.namespace := "default"; K8s.label_selector := "app=main-pod" |} in
  let ev name := {| K8s.involved_object_name := name; K8s.type := "Warning";
                    K8s.reason := "BackOff"; K8s.message := "restarting";
                    K8s.last_timestamp := "2024-01-01T00:00:00Z" |} in
  let api := {| K8s.list_namespaced_event := fun _ => Some [ev "main-1"; ev "node-7"; ev "side"];
                K8s.read_namespaced_pod := fun name _ =>
                  if decide (name = "main-1")
                  then K8s.PodFound (Some {["app" := "main-pod"]})
                  else if decide (name = "side") then K8s.PodFound None
                  else K8s.ApiException |} in
  K8s.track_events t api = [K8s.tracked_of (ev "main-1")].
Proof.
  intros t ev api.
  rewrite (track_events_keeps_matching_pods t api [ev "main-1"; ev "node-7"; ev "side"]);
    [by vm_compute | reflexivity | repeat constructor; by vm_compute].
Defined.

Lemma track_events_all_or_nothing_witness :
  let t := {| K8s.namespace := "default"; K8s.label_selector := "app=main-pod" |} in
  let ev name := {| K8s.involved_object_name := name; K8s.type := "Warning";
                    K8s.reason := "BackOff"; K8s.message := "restarting";
                    K8s.last_timestamp := "2024-01-01T00:00:00Z" |} in
  let api := {| K8s.list_namespaced_event := fun _ => Some [ev "main-1"; ev "broken"];
                K8s.read_namespaced_pod := fun name _ =>
                  if decide (name = "main-1")
                  then K8s.PodFound (Some {["app" := "main-pod"]})
                  else K8s.OtherException |} in
  K8s.track_events t api = [].
Proof.
  intros t ev api.
  apply (proj2 (track_events_all_or_nothing t api) [ev "main-1"; ev "broken"] (ev "broken"));
    [reflexivity | by right; left | by vm_compute].
Defined.

(** * The license manager *)

Section LicenseManager.

Import License.

Lemma days_within_trial start now :
  days_between start now <= trial_days <-> now - start < 31 * 86400.
Proof.
  unfold days_between, trial_days. split.
  - intros Hle.
    destruct (decide (now - start < 31 * 86400)) as [|Hge]; [done|].
    assert (31 <= (now - start) `div` 86400); [|lia].
    apply Z.div_le_lower_bound; lia.
  - intros Hlt. assert ((now - start) `div` 86400 < 31); [|lia].
    apply Z.div_lt_upper_bound; lia.
Qed.

(** X23. A paid license does not expire: once a start date is on
    record and [update_license] has accepted a key, [check_license]
    answers "active" with code 200 at every later time, however long ago
    the trial began. *)
Theorem paid_license_stays_active (key : string) (s : store) (later : Z) :
  key ∈ valid_keys -> is_Some (start_date s) ->
  let s' := (update_license key s).2 in
  (check_license {| license_key := license_key s'; start_date := start_date s';
                    clock := later |}).1 =
  {| l_status := "active"; l_message := "Paid license active."; l_code := 200 |}.
Proof.
  intros Hkey [start Hstart] s'. subst s'.
  unfold update_license. rewrite bool_decide_true by done.
  unfold check_license. cbn. rewrite Hstart. cbn. by rewrite bool_decide_true.
Qed.

Lemma paid_license_stays_active_witness :
  (check_license
     {| license_key := license_key
          (update_license "PAID-LICENSE-001"
             {| license_key := None; start_date := Some 0; clock := 10 |}).2;
        start_date := Some 0;
        clock := 400 * 86400 |}).1 =
  {| l_status := "active"; l_message := "Paid license active."; l_code := 200 |}.
Proof.
  apply (paid_license_stays_active "PAID-LICENSE-001"
           {| license_key := None; start_date := Some 0; clock := 10 |} (400 * 86400)).
  - by apply (bool_decide_unpack _).
  - by eexists.
Defined.

(** X24. The length of the trial.  Without a paid key and with a start
    date on record, [check_license] answers "trial" with code 200 as long
    as fewer than 31 days of 86400 seconds have passed since the start
    date (the test is on whole days, at most 30), and "expired" with
    code 403 from then on; the store is the same in both cases. *)
Theorem trial_lasts_31_days (s : store) (start : Z) :
  start_date s = Some start ->
  match license_key s with
  | Some key => key ∉ valid_keys
  | None => True
  end ->
  (clock s - start < 31 * 86400 ->
   check_license s =
   ({| l_status := "trial";
       l_message := "Trial active, "
                    +:+ pretty (trial_days - days_between start (clock s))
                    +:+ " days remaining.";
       l_code := 200 |}, s)) /\
  (31 * 86400 <= clock s - start ->
   check_license s =
   ({| l_status := "expired";
       l_message := "Trial expired. Please update your license.";
       l_code := 403 |}, s)).
Proof.
  intros Hstart Hkey. unfold check_license. rewrite Hstart. cbn [decode].
  assert (match license_key s with
          | Some key => bool_decide (key ∈ valid_keys)
          | None => false
          end = false) as ->.
  { destruct (license_key s); [|done]. by rewrite bool_decide_false. }
  split; intros Hdays.
  - rewrite bool_decide_true; [done|]. by apply days_within_trial.
  - rewrite bool_decide_false; [done|]. rewrite days_within_trial. lia.
Qed.

Lemma trial_lasts_31_days_witness :
  (check_license {| license_key := None; start_date := Some 0;
                    clock := 31 * 86400 - 1 |}).1 =
    {| l_status := "trial"; l_message := "Trial active, 0 days remaining.";
       l_code := 200 |} /\
  (check_license {| license_key := Some "PAID-LICENSE-000"; start_date := Some 0;
                    clock := 31 * 86400 |}).1 =
    {| l_status := "expired"; l_message := "Trial expired. Please update your license.";
       l_code := 403 |}.
Proof.
  split.
  - rewrite (proj1 (trial_lasts_31_days
                      {| license_key := None; start_date := Some 0;
                         clock := 31 * 86400 - 1 |} 0 eq_refl I));
      [by vm_compute | by vm_compute].
  - rewrite (proj2 (trial_lasts_31_days
                      {| license_key := Some "PAID-LICENSE-000"; start_date := Some 0;
                         clock := 31 * 86400 |} 0 eq_refl
                      ltac:(by apply (bool_decide_unpack _))));
      [done | by vm_compute].
Defined.

(** X25. The first [check_license] fails.  On a store without a start
    date it records the current time as the start date and then answers
    "error" with code 500, paid key or not: the text it has just made is
    a str and the [.decode()] applied to it raises.  The second call, at
    the same time and without a paid key, answers "trial" with 30 days
    remaining.  On a store with a start date [check_license] leaves the
    store as it is, and [update_license] never touches the start date. *)
Theorem first_check_license_fails (s : store) :
  (start_date s = None ->
   check_license s =
     ({| l_status := "error"; l_message := "Internal server error"; l_code := 500 |},
      {| license_key := license_key s; start_date := Some (clock s);
         clock := clock s |}) /\
   (match license_key s with
    | Some key => key ∉ valid_keys
    | None => True
    end ->
    (check_license (check_license s).2).1 =
      {| l_status := "trial"; l_message := "Trial active, 30 days remaining.";
         l_code := 200 |})) /\
  (is_Some (start_date s) -> (check_license s).2 = s) /\
  (forall key, start_date (update_license key s).2 = start_date s).
Proof.
  unfold check_license. split; [|split].
  - intros ->. cbn. split; [done|]. intros Hkey.
    unfold days_between. rewrite Z.sub_diag. change (0 `div` 86400) with 0.
    destruct (license_key s) as [key|]; [|reflexivity].
    by rewrite bool_decide_false.
  - intros [start ->]. cbn.
    destruct (match license_key s with Some _ => _ | None => _ end); [done|].
    by destruct (bool_decide _).
  - intros key. unfold update_license. by destruct (bool_decide _).
Qed.

Lemma first_check_license_fails_witness :
  check_license {| license_key := Some "PAID-LICENSE-001"; start_date := None;
                   clock := 1234 |} =
  ({| l_status := "error"; l_message := "Internal server error"; l_code := 500 |},
   {| license_key := Some "PAID-LICENSE-001"; start_date := Some 1234; clock := 1234 |}).
Proof.
  apply (proj1 (proj1 (first_check_license_fails
                         {| license_key := Some "PAID-LICENSE-001"; start_date := None;
                            clock := 1234 |}) eq_refl)).
Defined.

End LicenseManager.
